(** * insider-detect: behavioural scoring pipeline

    A shallow embedding of the scoring core of the repository:

    - [backend/app/features/engineering.py]  ([FeatureEngineer.compute_batch_features])
    - [backend/app/main.py]                  ([map_to_mitre], [get_threat_level], [predict_threat])
    - [backend/app/services/correlator.py]   ([AlertCorrelator])

    Conventions of the embedding.
    - A timestamp is an integer number of nanoseconds since the epoch (the
      resolution of a pandas [Timestamp]); a [Timedelta] is an integer too.
    - Python floats that carry scores and ratios are exact rationals ([Q]);
      the entropy, which needs the natural logarithm, is a real number ([R]).
    - A [Counter] is an association list in insertion order, as a Python dict.
    - A cell of a frame that is not a string ([None], [NaN]) is [None].
    - A session enforces the unique index of [incidents.incident_number];
      column lengths and foreign keys, whose enforcement depends on the
      database engine, are left out. *)

From Stdlib Require Import Ascii String.
From Stdlib Require Import ZArith QArith Reals List Bool Lia Psatz.
From Stdlib Require Import Permutation Sorted.
From Stdlib Require OrderedTypeEx.
Import ListNotations.

Open Scope string_scope.
Open Scope list_scope.
Open Scope Z_scope.

(** ** Time *)

Definition Timestamp := Z.
Definition Timedelta := Z.

Definition NANOS_PER_SECOND : Z := 1000000000.
Definition hours (n : Z) : Timedelta := n * 3600 * NANOS_PER_SECOND.
Definition minutes (n : Z) : Timedelta := n * 60 * NANOS_PER_SECOND.

(** [Timestamp.hour]: the hour of the day, 0..23. *)
Definition hour_of (ts : Timestamp) : Z := (ts / hours 1) mod 24.

(** ** Feature engineering ([features/engineering.py]) *)

Module Features.

(** One row of the event frame, with the columns [compute_batch_features]
    reads. *)
Record Event := mkEvent {
  timestamp : Timestamp;
  user_id : string;
  src_ip : string;
  dst_ip : option string;
  event_type : string;
  file_name : option string;
  bytes_transferred : option Z;
  geo_country : option string
}.

(** The nine feature columns, in the order of [feature_columns]. *)
Record FeatureVector := mkFeatureVector {
  login_count_1h : Z;
  failed_login_rate_1h : Q;
  bytes_transferred_1h : Z;
  unique_dst_ips_1h : Z;
  unique_files_24h : Z;
  off_hours_ratio_24h : Q;
  privilege_change_flag : Z;
  geo_anomaly_score : Z;
  dst_ip_entropy_1h : R
}.

(** *** Numeric masks (lines 43-45) *)

Definition is_login_success (e : Event) : Z :=
  if String.eqb (event_type e) "login_success" then 1 else 0.

Definition is_login_fail (e : Event) : Z :=
  if String.eqb (event_type e) "login_fail" then 1 else 0.

Definition is_off_hours (e : Event) : Z :=
  let h := hour_of (timestamp e) in
  if (h <? 6) || (h >=? 18) then 1 else 0.

(** A missing byte count is a NaN cell, which a rolling sum skips. *)
Definition bytes_value (e : Event) : Z :=
  match bytes_transferred e with Some b => b | None => 0 end.

(** *** pandas time-based rolling windows

    [Series.rolling(offset)] on a monotonic [DatetimeIndex], with the default
    [closed='right']: the window of row [i] holds the rows [j <= i] whose
    index lies in [(index[i] - offset, index[i]]].  [seen] is the list of the
    rows up to and including row [i]. *)

Definition in_rolling (offset : Timedelta) (current : Timestamp) (e : Event) : bool :=
  current - timestamp e <? offset.

Definition zsum (l : list Z) : Z := fold_right Z.add 0 l.

Definition rolling_sum (offset : Timedelta) (col : Event -> Z)
    (seen : list Event) (current : Timestamp) : Z :=
  zsum (map col (filter (in_rolling offset current) seen)).

Definition rolling_count (offset : Timedelta)
    (seen : list Event) (current : Timestamp) : Z :=
  Z.of_nat (length (filter (in_rolling offset current) seen)).

(** [rolling(offset).mean().fillna(0)] *)
Definition rolling_mean (offset : Timedelta) (col : Event -> Z)
    (seen : list Event) (current : Timestamp) : Q :=
  let n := rolling_count offset seen current in
  if n =? 0 then 0%Q
  else (inject_Z (rolling_sum offset col seen current) / inject_Z n)%Q.

(** [(fails_1h / logins_1h.replace(0, np.nan)).fillna(0)] (lines 49-51) *)
Definition failed_login_rate (seen : list Event) (current : Timestamp) : Q :=
  let logins := rolling_sum (hours 1) (fun e => is_login_success e + is_login_fail e) seen current in
  let fails := rolling_sum (hours 1) is_login_fail seen current in
  if logins =? 0 then 0%Q else (inject_Z fails / inject_Z logins)%Q.

(** *** Counter and deque (lines 58-75) *)

Definition Counter := list (string * Z).

(** [counts[k]]: a missing key reads as 0. *)
Fixpoint counter_get (counts : Counter) (k : string) : Z :=
  match counts with
  | [] => 0
  | (k', n) :: rest => if String.eqb k k' then n else counter_get rest k
  end.

(** [counts[k] += 1]: an existing key keeps its place, a new key goes last. *)
Fixpoint counter_incr (counts : Counter) (k : string) : Counter :=
  match counts with
  | [] => [(k, 1)]
  | (k', n) :: rest =>
      if String.eqb k k' then (k', n + 1) :: rest else (k', n) :: counter_incr rest k
  end.

(** [counts[k] -= 1; if counts[k] <= 0: del counts[k]].  For a missing key the
    first statement stores -1 and the second deletes it again. *)
Fixpoint counter_decr (counts : Counter) (k : string) : Counter :=
  match counts with
  | [] => []
  | (k', n) :: rest =>
      if String.eqb k k' then (if n - 1 <=? 0 then rest else (k', n - 1) :: rest)
      else (k', n) :: counter_decr rest k
  end.

Definition Window := list (Timestamp * string).

(** [update_window]: pop from the left while the head is older than
    [max_delta]. *)
Fixpoint update_window (window : Window) (counts : Counter)
    (current_time : Timestamp) (max_delta : Timedelta) : Window * Counter :=
  match window with
  | [] => ([], counts)
  | (old_time, old_val) :: rest =>
      if current_time - old_time >? max_delta
      then update_window rest (counter_decr counts old_val) current_time max_delta
      else (window, counts)
  end.

(** [isinstance(v, str) and v] *)
Definition nonempty_str (v : option string) : option string :=
  match v with
  | Some s => if String.eqb s "" then None else Some s
  | None => None
  end.

(** Evict, then append the current observation when it is a non-empty
    string (lines 80-83 and 93-97). *)
Definition observe (window : Window) (counts : Counter) (ts : Timestamp)
    (max_delta : Timedelta) (v : option string) : Window * Counter :=
  let '(w, c) := update_window window counts ts max_delta in
  match nonempty_str v with
  | Some s => (w ++ [(ts, s)], counter_incr c s)
  | None => (w, c)
  end.

(** *** Entropy (lines 85-90)

    [scipy.stats.entropy(pk)] normalises [pk] to sum 1 and returns the sum of
    [scipy.special.entr], which is [-x*log(x)] for [x > 0] and [0] at [0]. *)

Definition rsum (l : list R) : R := fold_right Rplus 0%R l.

Definition entr (x : R) : R :=
  if Rlt_dec 0 x then (- x * ln x)%R else 0%R.

Definition normalize (pk : list R) : list R :=
  map (fun x => (x / rsum pk)%R) pk.

Definition scipy_entropy (pk : list R) : R := rsum (map entr (normalize pk)).

Definition counts_entropy (counts : Counter) : R :=
  match counts with
  | [] => 0%R
  | _ =>
      let probs := normalize (map (fun kv => IZR (snd kv)) counts) in
      scipy_entropy probs
  end.

(** *** The per-user loop (lines 60-98) *)

Record LoopState := mkLoopState {
  one_hour_window : Window;
  one_hour_counts : Counter;
  twentyfour_window : Window;
  twentyfour_counts : Counter
}.

Definition initial_state : LoopState := mkLoopState [] [] [] [].

(** One iteration of [for ts, row in group.sort_index().iterrows()]: the new
    state and the three values appended to [one_hour_uniques],
    [one_hour_entropy] and [twentyfour_uniques]. *)
Definition loop_step (st : LoopState) (row : Event) : LoopState * (Z * R * Z) :=
  let ts := timestamp row in
  let '(w1, c1) := observe (one_hour_window st) (one_hour_counts st) ts (hours 1) (dst_ip row) in
  let '(w24, c24) := observe (twentyfour_window st) (twentyfour_counts st) ts (hours 24) (file_name row) in
  (mkLoopState w1 c1 w24 c24,
   (Z.of_nat (length c1), counts_entropy c1, Z.of_nat (length c24))).

(** The feature vector of [row], given the rows of the group up to and
    including it ([seen]) and the loop state before it. *)
Definition row_features (seen : list Event) (st : LoopState) (row : Event)
    : LoopState * FeatureVector :=
  let ts := timestamp row in
  let '(st', (uniq1, ent1, uniq24)) := loop_step st row in
  (st',
   {| login_count_1h := rolling_sum (hours 1) is_login_success seen ts;
      failed_login_rate_1h := failed_login_rate seen ts;
      bytes_transferred_1h := rolling_sum (hours 1) bytes_value seen ts;
      unique_dst_ips_1h := uniq1;
      unique_files_24h := uniq24;
      off_hours_ratio_24h := rolling_mean (hours 24) is_off_hours seen ts;
      privilege_change_flag :=
        if String.eqb (event_type row) "privilege_escalation" then 1 else 0;
      (* the frame has a [geo_country] column; a NaN cell differs from 'US' *)
      geo_anomaly_score :=
        match geo_country row with
        | Some c => if String.eqb c "US" then 0 else 1
        | None => 1
        end;
      dst_ip_entropy_1h := ent1 |}).

(** The body of [for user, group in df.groupby('user_id')] on the rows of one
    user in frame order.  [before] holds the rows already processed. *)
Fixpoint group_loop (before : list Event) (st : LoopState) (rows : list Event)
    : list (Event * FeatureVector) :=
  match rows with
  | [] => []
  | row :: rest =>
      let seen := before ++ [row] in
      let '(st', fv) := row_features seen st row in
      (row, fv) :: group_loop seen st' rest
  end.

Definition group_features (group : list Event) : list (Event * FeatureVector) :=
  group_loop [] initial_state group.

(** *** The frame level (lines 33-39 and 113) *)

(** The order of [sort_values(['user_id', 'timestamp'])]. *)
Definition row_leb (a b : Event) : bool :=
  match String.compare (user_id a) (user_id b) with
  | Lt => true
  | Gt => false
  | Eq => timestamp a <=? timestamp b
  end.

Fixpoint insert_row (e : Event) (l : list Event) : list Event :=
  match l with
  | [] => [e]
  | x :: xs => if row_leb e x then e :: l else x :: insert_row e xs
  end.

(** A stable sort: rows with equal keys keep the order of the frame. *)
Definition sort_values (df : list Event) : list Event :=
  fold_right insert_row [] df.

(** [groupby('user_id')] on a frame sorted by user: the maximal runs of rows
    with one user, in frame order. *)
Fixpoint groupby_user (df : list Event) : list (string * list Event) :=
  match df with
  | [] => []
  | e :: rest =>
      match groupby_user rest with
      | (u, g) :: gs =>
          if String.eqb (user_id e) u then (u, e :: g) :: gs
          else (user_id e, [e]) :: (u, g) :: gs
      | [] => [(user_id e, [e])]
      end
  end.

Definition compute_batch_features (df : list Event) : list (Event * FeatureVector) :=
  concat (map (fun ug => group_features (snd ug)) (groupby_user (sort_values df))).

End Features.

(** ** Results of fallible calls *)

Inductive Exception :=
| ValueError (msg : string)
| IndexError (msg : string)
| HTTPException (status_code : Z) (detail : string)
| IntegrityError (column : string).

Inductive Result (A : Type) :=
| Ok (a : A)
| Raise (e : Exception).

Arguments Ok {A} a.
Arguments Raise {A} e.

(** ** Persistence ([database/models.py]) *)

Module Database.

Record Alert := mkAlert {
  id : Z;
  timestamp : option Timestamp;
  user_id : string;
  threat_score : Q;
  threat_level : string;
  mitre_tactic : option string;
  mitre_technique : option string;
  description : option string;
  incident_id : option Z
}.

Record ChainEntry := mkChainEntry {
  stage : string;
  tactic : option string;
  technique : option string;
  entry_timestamp : string
}.

Record Incident := mkIncident {
  incident_pk : Z;
  incident_number : string;
  incident_user_id : string;
  start_time : Timestamp;
  end_time : option Timestamp;
  severity : string;
  status : string;
  attack_chain : list ChainEntry;
  narrative : string;
  assigned_to : option string;
  resolution_notes : option string;
  false_positive : bool
}.

(** The tables a session reads and writes. *)
Record Db := mkDb {
  alerts : list Alert;
  incidents : list Incident
}.

(** An autoincrement primary key. *)
Definition fresh_id (used : list Z) : Z := 1 + fold_right Z.max 0 used.

Definition set_incident_id (a : Alert) (i : Z) : Alert :=
  mkAlert (id a) (timestamp a) (user_id a) (threat_score a) (threat_level a)
          (mitre_tactic a) (mitre_technique a) (description a) (Some i).

(** The unique index on [incidents.incident_number]
    ([unique=True], models.py line 105): whether a stored incident already
    carries [number]. *)
Definition number_taken (db : Db) (number : string) : bool :=
  existsb (fun i => String.eqb (incident_number i) number) (incidents db).

(** [incident.alerts]: the rows of the relationship. *)
Definition incident_alerts (db : Db) (inc : Incident) : list Alert :=
  filter (fun a => match incident_id a with
                   | Some i => i =? incident_pk inc
                   | None => false
                   end) (alerts db).

End Database.

(** ** Scoring ([main.py]) *)

Module Scoring.

Import Features.

Record EventInput := mkEventInput {
  ei_timestamp : Timestamp;
  ei_user_id : string;
  ei_src_ip : string;
  ei_dst_ip : option string;
  ei_event_type : string;
  ei_file_name : option string;
  ei_bytes_transferred : option Z;
  ei_process : option string;
  ei_device : option string;
  ei_success : option bool;
  ei_geo_country : option string
}.

Record PredictionResponse := mkPredictionResponse {
  resp_threat_score : Q;
  resp_threat_level : string;
  resp_is_malicious : bool;
  resp_mitre_tactic : option string;
  resp_mitre_technique : option string
}.

(** *** Thresholds (lines 50-52) *)

Record Thresholds := mkThresholds {
  THRESHOLD_CRITICAL : Q;
  THRESHOLD_HIGH : Q;
  THRESHOLD_MEDIUM : Q
}.

(** The values used when the environment sets none. *)
Definition default_thresholds : Thresholds :=
  mkThresholds 0.85 0.70 0.50.

(** *** [map_to_mitre] (lines 103-130) *)

Definition mitre_mapping : list (string * list (string * (string * string))) :=
  [ ("apt",
      [ ("login_fail", ("TA0001", "T1110"));
        ("login_success", ("TA0001", "T1078"));
        ("privilege_escalation", ("TA0004", "T1068"));
        ("file_access", ("TA0008", "T1021"));
        ("file_transfer", ("TA0010", "T1041")) ]);
    ("insider",
      [ ("file_access", ("TA0009", "T1005"));
        ("file_transfer", ("TA0010", "T1048"));
        ("email_send", ("TA0009", "T1114")) ]) ].

(** [dict.get(key, default)] on a dict literal. *)
Fixpoint dict_get {V : Type} (d : list (string * V)) (key : string) (default : V) : V :=
  match d with
  | [] => default
  | (k, v) :: rest => if String.eqb key k then v else dict_get rest key default
  end.

Definition map_to_mitre (threat_type event_type : string) : string * string :=
  dict_get (dict_get mitre_mapping threat_type []) event_type ("TA0000", "T0000").

(** *** [get_threat_level] (lines 132-141) *)

(** [a >= b] on scores. *)
Definition score_ge (a b : Q) : bool := Qle_bool b a.

Definition get_threat_level (th : Thresholds) (score : Q) : string :=
  if score_ge score (THRESHOLD_CRITICAL th) then "critical"
  else if score_ge score (THRESHOLD_HIGH th) then "high"
  else if score_ge score (THRESHOLD_MEDIUM th) then "medium"
  else "low".

(** *** [predict_threat] (lines 258-326) *)

(** [x or default] on an optional string. *)
Definition str_or (x : option string) (default : string) : string :=
  match x with
  | Some s => if String.eqb s "" then default else s
  | None => default
  end.

(** The row of the frame of lines 267-276. *)
Definition event_row (event : EventInput) : Event :=
  {| Features.timestamp := ei_timestamp event;
     Features.user_id := ei_user_id event;
     Features.src_ip := ei_src_ip event;
     Features.dst_ip := ei_dst_ip event;
     Features.event_type := ei_event_type event;
     Features.file_name := Some (str_or (ei_file_name event) "");
     Features.bytes_transferred := ei_bytes_transferred event;
     Features.geo_country := Some (str_or (ei_geo_country event) "US") |}.

Definition event_df (event : EventInput) : list Event := [event_row event].

(** [features_df[feature_cols].values]: the feature rows of the frame. *)
Definition predict_features (event : EventInput) : list FeatureVector :=
  map snd (compute_batch_features (event_df event)).

Section Predict.

(** The estimators and the scaler are opaque: the image of the scaler and the
    three functions are whatever the loaded artifacts compute. *)
Variable Scaled : Type.

Record Models := mkModels {
  rf_model : option (Scaled -> Q);
  xgb_model : option (Scaled -> Q);
  scaler : option (FeatureVector -> Scaled)
}.

Definition new_alert (db : Database.Db) (event : EventInput) (threat_score : Q)
    (threat_level : string) (mitre : string * string) : Database.Alert :=
  Database.mkAlert
    (Database.fresh_id (map Database.id (Database.alerts db)))
    (Some (ei_timestamp event))
    (ei_user_id event)
    threat_score
    threat_level
    (Some (fst mitre))
    (Some (snd mitre))
    (Some (String.append "Threat detected: " (ei_event_type event)))
    None.

Definition predict_threat (th : Thresholds) (models : Models)
    (event : EventInput) (db : Database.Db)
    : Result (Database.Db * PredictionResponse) :=
  match rf_model models, xgb_model models, scaler models with
  | Some rf, Some xgb, Some scale =>
      let X := predict_features event in
      let X_scaled := map scale X in
      let rf_prob := map rf X_scaled in
      let xgb_prob := map xgb X_scaled in
      let ensemble_score :=
        map (fun ab => ((fst ab + snd ab) / 2)%Q) (combine rf_prob xgb_prob) in
      match ensemble_score with
      | threat_score :: _ =>
          let threat_level := get_threat_level th threat_score in
          let is_malicious := score_ge threat_score (THRESHOLD_MEDIUM th) in
          let mitre := map_to_mitre "apt" (ei_event_type event) in
          let db' :=
            if is_malicious
            then Database.mkDb
                   (Database.alerts db ++ [new_alert db event threat_score threat_level mitre])
                   (Database.incidents db)
            else db in
          Ok (db', mkPredictionResponse threat_score threat_level is_malicious
                     (Some (fst mitre)) (Some (snd mitre)))
      | [] => Raise (IndexError "index 0 is out of bounds")
      end
  | _, _, _ => Raise (HTTPException 500 "ML models not loaded")
  end.

End Predict.

Arguments mkModels {Scaled}.
Arguments rf_model {Scaled}.
Arguments xgb_model {Scaled}.
Arguments scaler {Scaled}.
Arguments predict_threat {Scaled}.

End Scoring.

(** ** Correlation ([services/correlator.py]) *)

Module Correlator.

Import Database.

Definition THREAT_SEVERITY_ORDER : list (string * Z) :=
  [ ("critical", 4); ("high", 3); ("medium", 2); ("low", 1) ].

Definition severity_rank (level : string) : Z :=
  Scoring.dict_get THREAT_SEVERITY_ORDER level 0.

(** *** [map_attack_stage] (lines 172-203) *)

(** [str.lower] on the ASCII letters. *)
Definition lower_ascii (c : ascii) : ascii :=
  let n := nat_of_ascii c in
  if (65 <=? n)%nat && (n <=? 90)%nat then ascii_of_nat (n + 32) else c.

Fixpoint lower (s : string) : string :=
  match s with
  | EmptyString => EmptyString
  | String c rest => String (lower_ascii c) (lower rest)
  end.

(** [needle in haystack] *)
Fixpoint contains (needle haystack : string) : bool :=
  if String.prefix needle haystack then true
  else match haystack with
       | EmptyString => false
       | String _ rest => contains needle rest
       end.

Definition map_attack_stage (mitre_tactic : option string) : string :=
  match mitre_tactic with
  | None => "Unknown"
  | Some "" => "Unknown"
  | Some t =>
      let tactic := lower t in
      if contains "initial access" tactic then "Initial Access"
      else if contains "execution" tactic then "Execution"
      else if contains "persistence" tactic then "Persistence"
      else if contains "privilege escalation" tactic then "Privilege Escalation"
      else if contains "defense evasion" tactic then "Defense Evasion"
      else if contains "credential access" tactic then "Credential Access"
      else if contains "discovery" tactic then "Discovery"
      else if contains "lateral movement" tactic then "Lateral Movement"
      else if contains "collection" tactic then "Collection"
      else if contains "exfiltration" tactic then "Exfiltration"
      else if contains "command and control" tactic || contains "c2" tactic
           then "Command & Control"
      else "Other"
  end.

Section WithFormatting.

(** Library formatting, left abstract: [datetime.strftime] with a format,
    [datetime.isoformat], the [:.2f] float format and [str] of a length. *)
Variable strftime : string -> Timestamp -> string.
Variable isoformat : Timestamp -> string.
Variable format_2f : Q -> string.
Variable str_of_len : nat -> string.

(** [a.timestamp or datetime.utcnow()] *)
Definition ts_or_now (now : Timestamp) (a : Alert) : Timestamp :=
  match timestamp a with Some t => t | None => now end.

(** A stable sort of alerts by a timestamp key, as [sorted(..., key=...)] and
    as [ORDER BY timestamp ASC] on rows in table order. *)
Fixpoint insert_alert (key : Alert -> Timestamp) (a : Alert) (l : list Alert) : list Alert :=
  match l with
  | [] => [a]
  | x :: xs => if key a <=? key x then a :: l else x :: insert_alert key a xs
  end.

Definition sort_alerts (key : Alert -> Timestamp) (l : list Alert) : list Alert :=
  fold_right (insert_alert key) [] l.

(** *** [generate_narrative] (lines 146-170) *)

Definition opt_or (x : option string) (default : string) : string :=
  Scoring.str_or x default.

Definition narrative_step (a : Alert) : string :=
  let ts := match timestamp a with
            | Some t => strftime "%H:%M:%S" t
            | None => "unknown time"
            end in
  let stage := map_attack_stage (mitre_tactic a) in
  let tactic := opt_or (mitre_tactic a) "Unknown Tactic" in
  let technique := opt_or (mitre_technique a) "Unknown Technique" in
  String.concat ""
    [ "["; ts; "] "; stage; ": "; tactic; " ("; technique; ") with score ";
      format_2f (threat_score a) ].

Definition newline : string := String (ascii_of_nat 10) EmptyString.

Definition generate_narrative (alerts : list Alert) : string :=
  match alerts with
  | [] => "No alerts to generate narrative."
  | first :: _ =>
      let start := match timestamp first with
                   | Some t => strftime "%Y-%m-%d %H:%M:%S" t
                   | None => "unknown time"
                   end in
      let steps := map narrative_step alerts in
      String.concat ""
        [ "Potential attack sequence detected for user '"; user_id first;
          "' starting "; start; ". ";
          "Correlated "; str_of_len (length alerts);
          " alerts in temporal proximity."; newline;
          String.concat newline steps ]
  end.

(** *** [create_incident] (lines 73-144) *)

(** The loop of lines 96-99. *)
Definition max_severity_of (alerts : list Alert) : string :=
  fold_left
    (fun max_severity a =>
       if negb (String.eqb (threat_level a) "")
          && (severity_rank (threat_level a) >? severity_rank max_severity)
       then threat_level a else max_severity)
    alerts "low".

Definition chain_entry (now : Timestamp) (a : Alert) : ChainEntry :=
  {| stage := map_attack_stage (mitre_tactic a);
     tactic := mitre_tactic a;
     technique := mitre_technique a;
     entry_timestamp := isoformat (ts_or_now now a) |}.

(** [for a in alerts_sorted: a.incident_id = incident.id], on the rows of the
    session that are these alerts. *)
Definition link_alerts (rows : list Alert) (linked : list Alert) (incident : Z) : list Alert :=
  map (fun row =>
         if existsb (fun a => id a =? id row) linked
         then set_incident_id row incident else row) rows.

Definition create_incident (db : Db) (now : Timestamp) (alerts_in : list Alert)
    : Result (Db * Incident) :=
  match alerts_in with
  | [] => Raise (ValueError "create_incident requires at least one alert")
  | _ :: _ =>
      let alerts_sorted := sort_alerts (ts_or_now now) alerts_in in
      match alerts_sorted with
      | [] => Raise (IndexError "list index out of range")
      | first :: _ =>
          let user := user_id first in
          let start := timestamp first in
          let stop := timestamp (last alerts_sorted first) in
          let max_severity := max_severity_of alerts_sorted in
          let chain := map (chain_entry now) alerts_sorted in
          let text := generate_narrative alerts_sorted in
          let ts_part :=
            strftime "%Y%m%d%H%M%S" (match start with Some t => t | None => now end) in
          let number := String.concat "" [ "INC-"; ts_part; "-"; user ] in
          let pk := fresh_id (map incident_pk (incidents db)) in
          let incident :=
            {| incident_pk := pk;
               incident_number := number;
               incident_user_id := user;
               start_time := match start with Some t => t | None => now end;
               end_time := stop;
               severity := max_severity;
               status := "open";
               attack_chain := chain;
               narrative := text;
               assigned_to := None;
               resolution_notes := None;
               false_positive := false |} in
          (* [db_session.flush()] inserts the row: a number that is already
             stored violates the unique index, and nothing is written *)
          if number_taken db number
          then Raise (IntegrityError "incidents.incident_number")
          else Ok ({| alerts := link_alerts (alerts db) alerts_sorted pk;
                      incidents := incidents db ++ [incident] |},
                   incident)
      end
  end.

(** *** [correlate_alerts] (lines 34-71) *)

(** The filter of the query: the user, and [window_start <= timestamp <=
    window_end]; a comparison with a NULL timestamp is not true. *)
Definition in_query (user : string) (window_start window_end : Timestamp) (a : Alert) : bool :=
  String.eqb (user_id a) user
  && match timestamp a with
     | Some t => (t >=? window_start) && (t <=? window_end)
     | None => false
     end.

Definition query_alerts (db : Db) (user : string) (window_start window_end : Timestamp)
    : list Alert :=
  sort_alerts (ts_or_now 0) (filter (in_query user window_start window_end) (alerts db)).

Definition correlate_alerts (db : Db) (now : Timestamp) (user : string)
    (time_window_minutes : Z) : Result (Db * option Incident) :=
  let window_end := now in
  let window_start := window_end - minutes time_window_minutes in
  let selected := query_alerts db user window_start window_end in
  match selected with
  | [] => Ok (db, None)
  | _ :: _ =>
      match create_incident db now selected with
      | Ok (db', incident) => Ok (db', Some incident)
      | Raise e => Raise e
      end
  end.

End WithFormatting.

End Correlator.

(** ** Notions used to state the properties *)

Module WindowSpec.

Import Features.

(** The counter agrees with the deque: its keys are distinct, its counts are
    positive and each count is the number of occurrences in the deque. *)
Definition consistent (w : Window) (c : Counter) : Prop :=
  NoDup (map fst c)
  /\ (forall k n, In (k, n) c -> 0 < n)
  /\ (forall k, counter_get c k = Z.of_nat (count_occ string_dec (map snd w) k)).

Definition state_consistent (st : LoopState) : Prop :=
  consistent (one_hour_window st) (one_hour_counts st)
  /\ consistent (twentyfour_window st) (twentyfour_counts st).

(** The states of the loop after each row. *)
Fixpoint loop_states (st : LoopState) (rows : list Event) : list LoopState :=
  match rows with
  | [] => []
  | row :: rest =>
      let st' := fst (loop_step st row) in
      st' :: loop_states st' rest
  end.

(** The observations of a column: the rows whose cell is a non-empty string,
    with their timestamps, in frame order. *)
Definition observations (col : Event -> option string) (rows : list Event) : Window :=
  flat_map (fun e => match nonempty_str (col e) with
                     | Some s => [(timestamp e, s)]
                     | None => []
                     end) rows.

(** An observation that [update_window] keeps at [current]: its age is at
    most [max_delta]. *)
Definition kept (max_delta : Timedelta) (current : Timestamp) (p : Timestamp * string) : bool :=
  negb (current - fst p >? max_delta).

(** An observation in the half-open trailing window
    [(current - max_delta, current]]. *)
Definition in_half_open (max_delta : Timedelta) (current : Timestamp) (p : Timestamp * string) : bool :=
  (current - max_delta <? fst p) && (fst p <=? current).

Definition distinct_count (l : list string) : Z :=
  Z.of_nat (length (nodup string_dec l)).

(** The number of distinct non-empty destination addresses among the rows of
    [seen] stamped in [(current - 1h, current]]. *)
Definition unique_dst_ips_half_open (seen : list Event) (current : Timestamp) : Z :=
  distinct_count (map snd (filter (in_half_open (hours 1) current) (observations dst_ip seen))).

(** The same count over the closed window [[current - 1h, current]]. *)
Definition unique_dst_ips_closed (seen : list Event) (current : Timestamp) : Z :=
  distinct_count (map snd (filter (kept (hours 1) current) (observations dst_ip seen))).

(** Shannon entropy, natural logarithm, of the frequency distribution of a
    list of values: [- sum p_v * ln p_v] over the distinct values [v]. *)
Definition frequency (l : list string) (v : string) : R :=
  (INR (count_occ string_dec l v) / INR (length l))%R.

Definition shannon_entropy (l : list string) : R :=
  (- rsum (map (fun v => frequency l v * ln (frequency l v)) (nodup string_dec l)))%R.

Definition timestamps_sorted (rows : list Event) : Prop :=
  StronglySorted Z.le (map timestamp rows).

Definition same_user (u : string) (rows : list Event) : Prop :=
  Forall (fun e => user_id e = u) rows.

(** The state of the loop after a run of rows. *)
Definition run_loop (st : LoopState) (rows : list Event) : LoopState :=
  fold_left (fun s row => fst (loop_step s row)) rows st.

(** Every entry of the two deques was observed at one of the rows. *)
Definition windows_from (rows : list Event) (st : LoopState) : Prop :=
  (forall p, In p (one_hour_window st) -> In (fst p) (map timestamp rows))
  /\ (forall p, In p (twentyfour_window st) -> In (fst p) (map timestamp rows)).

End WindowSpec.

Module PipelineSpec.

Import Features Scoring.

(** The row of a logged event in the frame a batch caller passes: the cells
    of the log as they are, an absent cell staying absent.  [ingest_event]
    stores the fields as submitted, and [models/train.py] reads the log with
    [read_csv] and passes the frame on; no default is applied on the way. *)
Definition log_row (event : EventInput) : Event :=
  {| Features.timestamp := ei_timestamp event;
     Features.user_id := ei_user_id event;
     Features.src_ip := ei_src_ip event;
     Features.dst_ip := ei_dst_ip event;
     Features.event_type := ei_event_type event;
     Features.file_name := ei_file_name event;
     Features.bytes_transferred := ei_bytes_transferred event;
     Features.geo_country := ei_geo_country event |}.

(** Batch mode: the feature vectors of the full log, in log order. *)
Definition batch_features (log : list EventInput) : list FeatureVector :=
  map snd (compute_batch_features (map log_row log)).

(** The event names its country: [geo_country] is a non-empty string. *)
Definition carries_geo_country (event : EventInput) : bool :=
  match nonempty_str (ei_geo_country event) with
  | Some _ => true
  | None => false
  end.

(** Streaming mode: the log submitted to [predict_threat] one event at a
    time. *)
Definition streaming_features (log : list EventInput) : list FeatureVector :=
  flat_map predict_features log.

Definition one_entity (log : list EventInput) : Prop :=
  exists u, Forall (fun e => ei_user_id e = u) log.

Definition chronological (log : list EventInput) : Prop :=
  StronglySorted Z.le (map ei_timestamp log).

(** The feature vector of a row taken alone. *)
Definition lone_features (row : Event) : FeatureVector :=
  snd (row_features [row] initial_state row).

End PipelineSpec.

(** ** Sample inputs *)

Module Samples.

Import Features Scoring.

(** A successful login of user042 towards [dst] at [t]. *)
Definition login_at (t : Timestamp) (dst : string) : EventInput :=
  {| ei_timestamp := t;
     ei_user_id := "user042";
     ei_src_ip := "10.0.0.5";
     ei_dst_ip := Some dst;
     ei_event_type := "login_success";
     ei_file_name := None;
     ei_bytes_transferred := Some 0;
     ei_process := None;
     ei_device := None;
     ei_success := Some true;
     ei_geo_country := None |}.

(** Two logins ten minutes apart. *)
Definition two_logins : list EventInput :=
  [ login_at 0 "203.0.113.7"; login_at (minutes 10) "198.51.100.9" ].

(** Two logins twenty-five hours apart. *)
Definition spaced_logins : list EventInput :=
  [ login_at 0 "203.0.113.7"; login_at (hours 25) "198.51.100.9" ].

(** Two logins exactly one hour apart. *)
Definition boundary_logins : list EventInput :=
  [ login_at 0 "203.0.113.7"; login_at (hours 1) "198.51.100.9" ].

(** A failed login of user042 at [t]. *)
Definition login_fail_at (t : Timestamp) : EventInput :=
  {| ei_timestamp := t;
     ei_user_id := "user042";
     ei_src_ip := "10.0.0.5";
     ei_dst_ip := None;
     ei_event_type := "login_fail";
     ei_file_name := None;
     ei_bytes_transferred := Some 0;
     ei_process := None;
     ei_device := None;
     ei_success := Some false;
     ei_geo_country := Some "US" |}.

(** Five failed logins and then a successful one, within twelve minutes. *)
Definition brute_force_log : list EventInput :=
  [ login_fail_at (minutes 0); login_fail_at (minutes 2); login_fail_at (minutes 4);
    login_fail_at (minutes 6); login_fail_at (minutes 8);
    login_at (minutes 12) "203.0.113.7" ].

Definition email_event : EventInput :=
  {| ei_timestamp := 0;
     ei_user_id := "user042";
     ei_src_ip := "10.0.0.5";
     ei_dst_ip := None;
     ei_event_type := "email_send";
     ei_file_name := None;
     ei_bytes_transferred := None;
     ei_process := None;
     ei_device := None;
     ei_success := None;
     ei_geo_country := None |}.

End Samples.

Module ScoringSpec.

Import Scoring.

(** The event types of the [apt] table and the pairs of the [insider]
    table. *)
Definition apt_event_types : list string :=
  map fst (dict_get mitre_mapping "apt" []).

Definition insider_pairs : list (string * string) :=
  map snd (dict_get mitre_mapping "insider" []).

Definition sentinel_pair : string * string := ("TA0000", "T0000").

(** Estimators used in the examples: constant probabilities on a trivial
    scaled space. *)
Definition sample_models : Models unit :=
  mkModels (Some (fun _ => 0.9%Q)) (Some (fun _ => 0.7%Q)) (Some (fun _ => tt)).

Definition empty_db : Database.Db := Database.mkDb [] [].

End ScoringSpec.

Module CorrelatorSpec.

Import Database Correlator.

(** The kill-chain stage names, in the order of the tests. *)
Definition kill_chain_stages : list string :=
  [ "Initial Access"; "Execution"; "Persistence"; "Privilege Escalation";
    "Defense Evasion"; "Credential Access"; "Discovery"; "Lateral Movement";
    "Collection"; "Exfiltration"; "Command & Control" ].

(** The mapping as a first-match substring test against the stage names
    themselves, ignoring case. *)
Definition stageOf (tactic_name : option string) : string :=
  match tactic_name with
  | None => "Unknown"
  | Some s =>
      if String.eqb s "" then "Unknown"
      else match find (fun stage => contains (lower stage) (lower s)) kill_chain_stages with
           | Some stage => stage
           | None => "Other"
           end
  end.

(** The substrings [map_attack_stage] looks for, with the stage each yields,
    in the order of the tests. *)
Definition stage_patterns : list (list string * string) :=
  [ (["initial access"], "Initial Access");
    (["execution"], "Execution");
    (["persistence"], "Persistence");
    (["privilege escalation"], "Privilege Escalation");
    (["defense evasion"], "Defense Evasion");
    (["credential access"], "Credential Access");
    (["discovery"], "Discovery");
    (["lateral movement"], "Lateral Movement");
    (["collection"], "Collection");
    (["exfiltration"], "Exfiltration");
    (["command and control"; "c2"], "Command & Control") ].

Definition first_stage (tactic : string) : option string :=
  option_map snd
    (find (fun ps => existsb (fun p => contains p tactic) (fst ps)) stage_patterns).

(** Membership in the half-open window [(now - window, now]] for a user. *)
Definition in_half_open_window (user : string) (now : Timestamp)
    (time_window_minutes : Z) (a : Alert) : bool :=
  String.eqb (user_id a) user
  && match timestamp a with
     | Some t => (now - minutes time_window_minutes <? t) && (t <=? now)
     | None => false
     end.

(** An alert of user042 stamped exactly sixty minutes before [hours 10]. *)
Definition boundary_now : Timestamp := hours 10.

Definition boundary_alert : Alert :=
  {| id := 1;
     timestamp := Some (hours 9);
     user_id := "user042";
     threat_score := 0.9%Q;
     threat_level := "high";
     mitre_tactic := Some "TA0010";
     mitre_technique := Some "T1041";
     description := Some "Threat detected: file_transfer";
     incident_id := None |}.

Definition boundary_db : Db := mkDb [boundary_alert] [].

End CorrelatorSpec.

Module FormatSamples.

(** Stand-ins for the formatting functions in closed examples: every
    timestamp prints as its format string, every number as a fixed text. *)
Definition plain_strftime (fmt : string) (t : Timestamp) : string := fmt.
Definition plain_isoformat (t : Timestamp) : string := "T".
Definition plain_format_2f (q : Q) : string := "0.00".
Definition plain_str_of_len (n : nat) : string := "n".

End FormatSamples.

Module FeatureBoundsSpec.

Import Features.

(** The bounds every feature vector of a row satisfies, whatever the rows
    seen and the state of the loop. *)
Definition feature_bounds (fv : FeatureVector) : Prop :=
  (0 <= failed_login_rate_1h fv <= 1)%Q
  /\ (0 <= off_hours_ratio_24h fv <= 1)%Q
  /\ 0 <= login_count_1h fv
  /\ 0 <= unique_dst_ips_1h fv
  /\ 0 <= unique_files_24h fv
  /\ (privilege_change_flag fv = 0 \/ privilege_change_flag fv = 1)
  /\ (geo_anomaly_score fv = 0 \/ geo_anomaly_score fv = 1).

End FeatureBoundsSpec.

Module WindowSpec24.

Import Features WindowSpec.

(** The number of distinct non-empty file names among the rows of [seen]
    stamped in the closed window [[current - 24h, current]]. *)
Definition unique_files_closed (seen : list Event) (current : Timestamp) : Z :=
  distinct_count (map snd (filter (kept (hours 24) current) (observations file_name seen))).

End WindowSpec24.

Module MoreSamples.

Import Features Scoring Samples.

(** An access of user042 to [name] at [t]. *)
Definition file_access_at (t : Timestamp) (name : string) : Event :=
  {| timestamp := t;
     user_id := "user042";
     src_ip := "10.0.42.10";
     dst_ip := Some "";
     event_type := "file_access";
     file_name := Some name;
     bytes_transferred := Some 0;
     geo_country := Some "US" |}.

(** Three accesses: two files exactly 24 hours apart, then a third file one
    nanosecond later. *)
Definition file_rows : list Event :=
  [ file_access_at 0 "CONFIDENTIAL_project_0.pdf";
    file_access_at (hours 24) "CONFIDENTIAL_project_1.pdf";
    file_access_at (hours 24 + 1) "CONFIDENTIAL_project_2.pdf" ].

(** A transfer of user042 at 09:30 of the first day. *)
Definition transfer_event : EventInput :=
  {| ei_timestamp := hours 9 + minutes 30;
     ei_user_id := "user042";
     ei_src_ip := "10.0.42.10";
     ei_dst_ip := Some "203.0.113.50";
     ei_event_type := "file_transfer";
     ei_file_name := Some "CONFIDENTIAL_export.zip";
     ei_bytes_transferred := Some 500000000;
     ei_process := None;
     ei_device := None;
     ei_success := Some true;
     ei_geo_country := Some "RU" |}.

End MoreSamples.

Module CorrelatorSamples.

Import Database Correlator CorrelatorSpec.

(** An alert of another user in the same hour. *)
Definition other_alert : Alert :=
  {| id := 2;
     timestamp := Some (hours 9 + minutes 15);
     user_id := "user007";
     threat_score := 0.6%Q;
     threat_level := "medium";
     mitre_tactic := Some "TA0001";
     mitre_technique := Some "T1110";
     description := Some "Threat detected: login_fail";
     incident_id := None |}.

Definition two_user_db : Db := mkDb [boundary_alert; other_alert] [].

End CorrelatorSamples.

(** ** The user timeline ([main.py], lines 353-384) *)

Module Timeline.

Import Database.

(** A row of the [events] table, with the columns the timeline reads;
    [timestamp] is declared NOT NULL. *)
Record EventRow := mkEventRow {
  ev_timestamp : Timestamp;
  ev_user_id : string;
  ev_event_type : string;
  ev_src_ip : option string;
  ev_success : option bool
}.

Record TimelineEvent := mkTimelineEvent {
  te_timestamp : Timestamp;
  te_event_type : string;
  te_src_ip : option string;
  te_success : option bool
}.

Record TimelineAlert := mkTimelineAlert {
  ta_timestamp : option Timestamp;
  ta_threat_score : Q;
  ta_threat_level : string;
  ta_description : option string
}.

Record UserTimelineResponse := mkUserTimelineResponse {
  tl_user_id : string;
  total_events : nat;
  total_alerts : nat;
  tl_events : list TimelineEvent;
  tl_alerts : list TimelineAlert
}.

(** [ORDER BY ... DESC] on rows in table order: [before x y] says that [x]
    may precede [y]. *)
Fixpoint insert_by {A : Type} (before : A -> A -> bool) (a : A) (l : list A) : list A :=
  match l with
  | [] => [a]
  | x :: xs => if before a x then a :: l else x :: insert_by before a xs
  end.

Definition order_by {A : Type} (before : A -> A -> bool) (l : list A) : list A :=
  fold_right (insert_by before) [] l.

Definition event_newer (x y : EventRow) : bool := ev_timestamp y <=? ev_timestamp x.

(** Alert timestamps are NOT NULL too; a missing one is ordered as the
    oldest. *)
Definition alert_newer (x y : Alert) : bool :=
  match timestamp y, timestamp x with
  | None, _ => true
  | Some _, None => false
  | Some ty, Some tx => ty <=? tx
  end.

Definition timeline_event (e : EventRow) : TimelineEvent :=
  mkTimelineEvent (ev_timestamp e) (ev_event_type e) (ev_src_ip e) (ev_success e).

Definition timeline_alert (a : Alert) : TimelineAlert :=
  mkTimelineAlert (timestamp a) (threat_score a) (threat_level a) (description a).

(** The rows the two queries return. *)
Definition timeline_event_rows (events : list EventRow) (user : string) : list EventRow :=
  firstn 100 (order_by event_newer (filter (fun e => String.eqb (ev_user_id e) user) events)).

Definition timeline_alert_rows (db : Db) (user : string) : list Alert :=
  firstn 50 (order_by alert_newer (filter (fun a => String.eqb (user_id a) user) (alerts db))).

(** The body of [get_user_timeline], for an authenticated caller. *)
Definition get_user_timeline (events : list EventRow) (db : Db) (user : string)
    : UserTimelineResponse :=
  let event_rows := timeline_event_rows events user in
  let alert_rows := timeline_alert_rows db user in
  {| tl_user_id := user;
     total_events := length event_rows;
     total_alerts := length alert_rows;
     tl_events := map timeline_event event_rows;
     tl_alerts := map timeline_alert alert_rows |}.

End Timeline.

Module IndependenceSpec.

Import Features.

(** The rows of one user in a frame, and the feature rows of one user in a
    result, both in order. *)
Definition rows_of_user (u : string) (df : list Event) : list Event :=
  filter (fun e => String.eqb (user_id e) u) df.

Definition features_of_user (u : string) (out : list (Event * FeatureVector))
    : list (Event * FeatureVector) :=
  filter (fun rf => String.eqb (user_id (fst rf)) u) out.

(** The groups of a [groupby] whose key is [u]. *)
Definition groups_of (u : string) (groups : list (string * list Event))
    : list (string * list Event) :=
  filter (fun ug => String.eqb (fst ug) u) groups.

End IndependenceSpec.

Module IncidentNumberSpec.

Import Database Correlator.

Section WithFormatting.

Variable strftime : string -> Timestamp -> string.

(** The [incident_number] of an incident of [user] that starts at [t]
    (lines 117-118). *)
Definition incident_number_at (t : Timestamp) (user : string) : string :=
  String.concat "" [ "INC-"; strftime "%Y%m%d%H%M%S" t; "-"; user ].

(** Whether the number [create_incident] gives the incident of these alerts
    is not stored yet: the number of the earliest alert's timestamp and
    user. *)
Definition number_free (db : Db) (now : Timestamp) (alerts_in : list Alert) : bool :=
  match sort_alerts (ts_or_now now) alerts_in with
  | [] => true
  | first :: _ =>
      negb (number_taken db (incident_number_at (ts_or_now now first) (user_id first)))
  end.

End WithFormatting.

End IncidentNumberSpec.

Module EntropyWindowSpec.

Import Features WindowSpec.

(** The Shannon entropy of the non-empty destination addresses among the
    rows of [seen] stamped in [(current - 1h, current]]. *)
Definition dst_ip_entropy_half_open (seen : list Event) (current : Timestamp) : R :=
  shannon_entropy
    (map snd (filter (in_half_open (hours 1) current) (observations dst_ip seen))).

(** The same entropy over the closed window [[current - 1h, current]]. *)
Definition dst_ip_entropy_closed (seen : list Event) (current : Timestamp) : R :=
  shannon_entropy
    (map snd (filter (kept (hours 1) current) (observations dst_ip seen))).

End EntropyWindowSpec.

Module LocatedSamples.

Import Features Scoring.

(** A successful login of user042 towards [dst] at [t], from [country]. *)
Definition login_from (country : string) (t : Timestamp) (dst : string) : EventInput :=
  {| ei_timestamp := t;
     ei_user_id := "user042";
     ei_src_ip := "10.0.0.5";
     ei_dst_ip := Some dst;
     ei_event_type := "login_success";
     ei_file_name := None;
     ei_bytes_transferred := Some 0;
     ei_process := None;
     ei_device := None;
     ei_success := Some true;
     ei_geo_country := Some country |}.

(** Two logins twenty-five hours apart, each with its country. *)
Definition located_logins : list EventInput :=
  [ login_from "US" 0 "203.0.113.7"; login_from "DE" (hours 25) "198.51.100.9" ].

End LocatedSamples.

(** * Properties *)

Module FeaturesFacts.

Import Features.

Lemma hours_pos : forall n, 0 < n -> 0 < hours n.
Proof. intros n Hn. unfold hours, NANOS_PER_SECOND. lia. Qed.

Lemma in_rolling_self : forall n e, 0 < n -> in_rolling (hours n) (timestamp e) e = true.
Proof.
  intros n e Hn. unfold in_rolling. rewrite Z.sub_diag.
  apply Z.ltb_lt. now apply hours_pos.
Qed.

(** On a frame of one row nothing is sorted or grouped away. *)
Lemma compute_batch_features_single : forall row,
  compute_batch_features [row] = group_features [row].
Proof.
  intros row. unfold compute_batch_features. simpl. now rewrite app_nil_r.
Qed.

Lemma rsum_scale : forall (l : list R) (c : R),
  rsum (map (fun x => (x / c)%R) l) = (rsum l / c)%R.
Proof.
  induction l as [|x l IH]; intros c; simpl.
  - unfold Rdiv. now rewrite Rmult_0_l.
  - rewrite IH. unfold Rdiv. ring.
Qed.

Lemma rsum_normalize : forall l, rsum l <> 0%R -> rsum (normalize l) = 1%R.
Proof.
  intros l Hl. unfold normalize. rewrite rsum_scale. now field.
Qed.

Lemma normalize_unit : forall l, rsum l = 1%R -> normalize l = l.
Proof.
  intros l Hl. unfold normalize. rewrite Hl.
  rewrite <- (map_id l) at 2. apply map_ext. intros x. field.
Qed.

(** The two normalisations of line 87 and of [scipy.stats.entropy] collapse
    into one. *)
Lemma scipy_entropy_normalize : forall l,
  rsum l <> 0%R -> scipy_entropy (normalize l) = rsum (map entr (normalize l)).
Proof.
  intros l Hl. unfold scipy_entropy.
  now rewrite (normalize_unit (normalize l)) by now apply rsum_normalize.
Qed.

Lemma entr_1 : entr 1 = 0%R.
Proof.
  unfold entr. destruct (Rlt_dec 0 1); [|reflexivity].
  rewrite ln_1. ring.
Qed.

Lemma counts_entropy_single : forall k, counts_entropy [(k, 1)] = 0%R.
Proof.
  intros k. unfold counts_entropy. cbn [map snd].
  rewrite scipy_entropy_normalize.
  - unfold normalize. cbn [map rsum fold_right].
    replace (1 / (1 + 0))%R with 1%R by field.
    rewrite entr_1. ring.
  - cbn [rsum fold_right]. lra.
Qed.

End FeaturesFacts.

Module CounterFacts.

Import Features.

Lemma counter_get_absent : forall c k,
  ~ In k (map fst c) -> counter_get c k = 0.
Proof.
  induction c as [|[k' n] c IH]; intros k Hk; simpl in *; [reflexivity|].
  destruct (String.eqb_spec k k') as [->|Hne].
  - exfalso. apply Hk. now left.
  - apply IH. intros Hin. apply Hk. now right.
Qed.

Lemma counter_get_in : forall c k n,
  NoDup (map fst c) -> In (k, n) c -> counter_get c k = n.
Proof.
  induction c as [|[k' n'] c IH]; intros k n Hnd Hin; simpl in *; [contradiction|].
  inversion Hnd as [|? ? Hnotin Hnd']; subst.
  destruct Hin as [Heq|Hin].
  - inversion Heq; subst. now rewrite String.eqb_refl.
  - destruct (String.eqb_spec k k') as [->|Hne].
    + exfalso. apply Hnotin. apply in_map_iff. now exists (k', n).
    + now apply IH.
Qed.

Lemma counter_get_incr : forall c k k',
  counter_get (counter_incr c k) k' =
  counter_get c k' + (if String.eqb k' k then 1 else 0).
Proof.
  induction c as [|[k0 n] c IH]; intros k k'; simpl.
  - destruct (String.eqb k' k); lia.
  - destruct (String.eqb_spec k k0) as [->|Hne]; simpl.
    + destruct (String.eqb_spec k' k0); lia.
    + destruct (String.eqb_spec k' k0) as [->|Hne'].
      * destruct (String.eqb_spec k0 k); [congruence|lia].
      * apply IH.
Qed.

Lemma counter_incr_keys : forall c k k',
  In k' (map fst (counter_incr c k)) <-> In k' (map fst c) \/ k' = k.
Proof.
  induction c as [|[k0 n] c IH]; intros k k'; simpl.
  - intuition.
  - destruct (String.eqb_spec k k0) as [->|Hne]; simpl.
    + intuition.
    + rewrite IH. intuition.
Qed.

Lemma counter_incr_nodup : forall c k,
  NoDup (map fst c) -> NoDup (map fst (counter_incr c k)).
Proof.
  induction c as [|[k0 n] c IH]; intros k Hnd; simpl.
  - constructor; [intros []|constructor].
  - inversion Hnd as [|? ? Hnotin Hnd']; subst.
    destruct (String.eqb_spec k k0) as [->|Hne]; simpl.
    + now constructor.
    + constructor; [|now apply IH].
      rewrite counter_incr_keys. intros [Hin|Heq]; [now apply Hnotin|congruence].
Qed.

Lemma counter_incr_pos : forall c k,
  (forall k' n, In (k', n) c -> 0 < n) ->
  forall k' n, In (k', n) (counter_incr c k) -> 0 < n.
Proof.
  induction c as [|[k0 n0] c IH]; intros k Hpos k' n Hin; simpl in *.
  - destruct Hin as [Heq|[]]. inversion Heq. lia.
  - destruct (String.eqb_spec k k0) as [->|Hne]; simpl in Hin.
    + destruct Hin as [Heq|Hin].
      * inversion Heq; subst. specialize (Hpos k' n0 (or_introl eq_refl)). lia.
      * apply (Hpos k' n). now right.
    + destruct Hin as [Heq|Hin].
      * inversion Heq; subst. apply (Hpos k' n). now left.
      * apply (IH k (fun a b H => Hpos a b (or_intror H)) k' n Hin).
Qed.

Lemma counter_decr_keys : forall c k k',
  In k' (map fst (counter_decr c k)) -> In k' (map fst c).
Proof.
  induction c as [|[k0 n] c IH]; intros k k' Hin; simpl in *; [assumption|].
  destruct (String.eqb_spec k k0) as [->|Hne].
  - destruct (n - 1 <=? 0); simpl in *; tauto.
  - simpl in Hin. destruct Hin as [Heq|Hin]; [now left|right; eauto].
Qed.

Lemma counter_decr_nodup : forall c k,
  NoDup (map fst c) -> NoDup (map fst (counter_decr c k)).
Proof.
  induction c as [|[k0 n] c IH]; intros k Hnd; simpl; [assumption|].
  inversion Hnd as [|? ? Hnotin Hnd']; subst.
  destruct (String.eqb_spec k k0) as [->|Hne].
  - destruct (n - 1 <=? 0); simpl; [assumption|now constructor].
  - simpl. constructor; [|now apply IH].
    intros Hin. apply Hnotin. eapply counter_decr_keys; eassumption.
Qed.

Lemma counter_decr_pos : forall c k,
  (forall k' n, In (k', n) c -> 0 < n) ->
  forall k' n, In (k', n) (counter_decr c k) -> 0 < n.
Proof.
  induction c as [|[k0 n0] c IH]; intros k Hpos k' n Hin; simpl in *; [contradiction|].
  destruct (String.eqb_spec k k0) as [->|Hne].
  - destruct (Z.leb_spec (n0 - 1) 0) as [Hle|Hgt].
    + apply (Hpos k' n). now right.
    + destruct Hin as [Heq|Hin].
      * inversion Heq; subst. lia.
      * apply (Hpos k' n). now right.
  - destruct Hin as [Heq|Hin].
    + inversion Heq; subst. apply (Hpos k' n). now left.
    + apply (IH k (fun a b H => Hpos a b (or_intror H)) k' n Hin).
Qed.

Lemma counter_get_decr : forall c k k',
  NoDup (map fst c) ->
  counter_get (counter_decr c k) k' =
  if String.eqb k' k
  then (if counter_get c k - 1 <=? 0 then 0 else counter_get c k - 1)
  else counter_get c k'.
Proof.
  induction c as [|[k0 n] c IH]; intros k k' Hnd; simpl.
  - now destruct (String.eqb k' k).
  - inversion Hnd as [|? ? Hnotin Hnd']; subst.
    destruct (String.eqb_spec k k0) as [->|Hne].
    + destruct (String.eqb_spec k' k0) as [->|Hne'].
      * destruct (Z.leb_spec (n - 1) 0); simpl.
        -- now apply counter_get_absent.
        -- now rewrite String.eqb_refl.
      * destruct (Z.leb_spec (n - 1) 0); simpl; [reflexivity|].
        destruct (String.eqb_spec k' k0); [congruence|reflexivity].
    + simpl. destruct (String.eqb_spec k' k0) as [->|Hne'].
      * destruct (String.eqb_spec k0 k); [congruence|reflexivity].
      * now apply IH.
Qed.

End CounterFacts.

Module WindowFacts.

Import Features WindowSpec CounterFacts.

Lemma consistent_nil : consistent [] [].
Proof.
  repeat split; simpl; [constructor|contradiction].
Qed.

Lemma consistent_push : forall w c t s,
  consistent w c -> consistent (w ++ [(t, s)]) (counter_incr c s).
Proof.
  intros w c t s (Hnd & Hpos & Hget). repeat split.
  - now apply counter_incr_nodup.
  - now apply counter_incr_pos.
  - intros k. rewrite counter_get_incr, Hget, map_app, count_occ_app. simpl.
    destruct (String.eqb_spec k s) as [->|Hne].
    + destruct (string_dec s s); [lia|congruence].
    + destruct (string_dec s k); [congruence|lia].
Qed.

Lemma consistent_pop : forall w c t s,
  consistent ((t, s) :: w) c -> consistent w (counter_decr c s).
Proof.
  intros w c t s (Hnd & Hpos & Hget). repeat split.
  - now apply counter_decr_nodup.
  - now apply counter_decr_pos.
  - intros k. rewrite counter_get_decr by assumption.
    destruct (String.eqb_spec k s) as [->|Hne].
    + rewrite Hget. simpl. destruct (string_dec s s); [|congruence].
      destruct (Z.leb_spec (Z.of_nat (S (count_occ string_dec (map snd w) s)) - 1) 0); lia.
    + rewrite Hget. simpl. destruct (string_dec s k); [congruence|reflexivity].
Qed.

Lemma update_window_consistent : forall w c cur delta,
  consistent w c ->
  consistent (fst (update_window w c cur delta)) (snd (update_window w c cur delta)).
Proof.
  induction w as [|[t s] w IH]; intros c cur delta Hc; simpl; [assumption|].
  destruct (cur - t >? delta); [|assumption].
  apply IH. eapply consistent_pop; eassumption.
Qed.

Lemma observe_consistent : forall w c ts delta v,
  consistent w c ->
  consistent (fst (observe w c ts delta v)) (snd (observe w c ts delta v)).
Proof.
  intros w c ts delta v Hc. unfold observe.
  pose proof (update_window_consistent w c ts delta Hc) as Hu.
  destruct (update_window w c ts delta) as [w' c']. simpl in Hu.
  destruct (nonempty_str v); simpl; [now apply consistent_push|assumption].
Qed.

Lemma loop_step_consistent : forall st row,
  state_consistent st -> state_consistent (fst (loop_step st row)).
Proof.
  intros st row [H1 H24]. unfold loop_step.
  pose proof (observe_consistent _ _ (timestamp row) (hours 1) (dst_ip row) H1) as A.
  pose proof (observe_consistent _ _ (timestamp row) (hours 24) (file_name row) H24) as B.
  destruct (observe (one_hour_window st) _ _ _ _) as [w1 c1].
  destruct (observe (twentyfour_window st) _ _ _ _) as [w24 c24].
  split; assumption.
Qed.

Lemma initial_state_consistent : state_consistent initial_state.
Proof. split; apply consistent_nil. Qed.

Lemma loop_states_consistent : forall rows st,
  state_consistent st -> Forall state_consistent (loop_states st rows).
Proof.
  induction rows as [|row rows IH]; intros st Hst; simpl; constructor.
  - now apply loop_step_consistent.
  - apply IH. now apply loop_step_consistent.
Qed.

(** Keys of a consistent counter are exactly the values of the deque. *)
Lemma consistent_keys : forall w c k,
  consistent w c -> In k (map fst c) <-> In k (map snd w).
Proof.
  intros w c k (Hnd & Hpos & Hget). split.
  - intros Hin. apply in_map_iff in Hin as ([k' n] & Hk & Hin). simpl in Hk. subst k'.
    pose proof (Hpos _ _ Hin) as Hn.
    rewrite <- (counter_get_in c k n Hnd Hin), Hget in Hn.
    apply (count_occ_In string_dec). lia.
  - intros Hin. apply (count_occ_In string_dec) in Hin.
    destruct (in_dec string_dec k (map fst c)) as [|Hno]; [assumption|].
    apply counter_get_absent in Hno. rewrite Hget in Hno. lia.
Qed.

Lemma consistent_values : forall w c,
  consistent w c ->
  map snd c = map (fun k => Z.of_nat (count_occ string_dec (map snd w) k)) (map fst c).
Proof.
  intros w c (Hnd & Hpos & Hget). rewrite map_map.
  apply map_ext_in. intros [k n] Hin. simpl.
  now rewrite <- Hget, (counter_get_in c k n Hnd Hin).
Qed.

Lemma consistent_keys_perm : forall w c,
  consistent w c -> Permutation (map fst c) (nodup string_dec (map snd w)).
Proof.
  intros w c Hc. apply NoDup_Permutation.
  - apply Hc.
  - apply NoDup_nodup.
  - intros k. rewrite nodup_In. now apply consistent_keys.
Qed.

(** [len(counts)] is the number of distinct values in the deque. *)
Lemma consistent_length : forall w c,
  consistent w c -> Z.of_nat (length c) = distinct_count (map snd w).
Proof.
  intros w c Hc. unfold distinct_count.
  rewrite <- (Permutation_length (consistent_keys_perm w c Hc)).
  now rewrite length_map.
Qed.

End WindowFacts.

Module EntropyFacts.

Import Features WindowSpec CounterFacts WindowFacts FeaturesFacts.

Lemma indicator_sum_in : forall (ks : list string) x,
  NoDup ks -> In x ks ->
  list_sum (map (fun k => if string_dec x k then 1 else 0)%nat ks) = 1%nat.
Proof.
  induction ks as [|k ks IH]; intros x Hnd Hin; [contradiction|].
  inversion Hnd as [|? ? Hnotin Hnd']; subst. simpl.
  destruct (string_dec x k) as [->|Hne].
  - f_equal. clear IH Hin Hnd. induction ks as [|k' ks IH]; [reflexivity|]. simpl.
    destruct (string_dec k k') as [->|_].
    + exfalso. apply Hnotin. now left.
    + apply IH.
      * intros H. apply Hnotin. now right.
      * now inversion Hnd'.
  - destruct Hin as [->|Hin]; [congruence|]. now apply IH.
Qed.

(** Summed over distinct keys that cover the list, the occurrence counts add
    up to the length of the list. *)
Lemma count_occ_sum : forall (l ks : list string),
  NoDup ks -> (forall v, In v l -> In v ks) ->
  list_sum (map (count_occ string_dec l) ks) = length l.
Proof.
  induction l as [|x l IH]; intros ks Hnd Hcov.
  - simpl. clear Hnd Hcov. induction ks; simpl; auto.
  - assert (Hsplit : forall ks',
      list_sum (map (count_occ string_dec (x :: l)) ks') =
      (list_sum (map (count_occ string_dec l) ks') +
       list_sum (map (fun k => if string_dec x k then 1 else 0) ks'))%nat).
    { induction ks' as [|k ks' IH']; [reflexivity|].
      rewrite !map_cons. unfold list_sum in *. cbn [fold_right]. rewrite IH'.
      destruct (string_dec x k) as [e|ne];
        [rewrite (count_occ_cons_eq _ l e)|rewrite (count_occ_cons_neq _ l ne)]; lia. }
    rewrite Hsplit, IH, indicator_sum_in.
    + simpl. lia.
    + assumption.
    + apply Hcov. now left.
    + assumption.
    + intros v Hv. apply Hcov. now right.
Qed.

Lemma zsum_of_nat : forall (l : list nat),
  zsum (map Z.of_nat l) = Z.of_nat (list_sum l).
Proof.
  induction l as [|x l IH]; simpl; [reflexivity|]. rewrite IH. lia.
Qed.

Lemma consistent_total : forall w c,
  consistent w c -> zsum (map snd c) = Z.of_nat (length w).
Proof.
  intros w c Hc. rewrite (consistent_values w c Hc).
  rewrite <- (map_map (count_occ string_dec (map snd w)) Z.of_nat).
  rewrite zsum_of_nat, count_occ_sum.
  - now rewrite length_map.
  - apply Hc.
  - intros v. now apply consistent_keys.
Qed.

Lemma rsum_IZR : forall l, rsum (map IZR l) = IZR (zsum l).
Proof.
  induction l as [|x l IH]; simpl; [reflexivity|]. now rewrite IH, plus_IZR.
Qed.

Lemma consistent_empty : forall w c, consistent w c -> c = [] -> w = [].
Proof.
  intros w c Hc ->. apply consistent_total in Hc. simpl in Hc.
  destruct w; [reflexivity|simpl in Hc; lia].
Qed.

Lemma consistent_nonempty : forall w c, consistent w c -> c <> [] -> w <> [].
Proof.
  intros w c Hc Hne ->. destruct c as [|[k n] c]; [congruence|].
  assert (Hin : In k (map fst ((k, n) :: c))) by now left.
  apply (consistent_keys _ _ k Hc) in Hin. contradiction.
Qed.

Lemma rsum_perm : forall l l', Permutation l l' -> rsum l = rsum l'.
Proof.
  induction 1; simpl; try congruence; ring.
Qed.

Lemma rsum_opp : forall (A : Type) (g : A -> R) l,
  rsum (map (fun x => (- g x)%R) l) = (- rsum (map g l))%R.
Proof.
  induction l as [|x l IH]; simpl; [ring|]. rewrite IH. ring.
Qed.

Lemma entr_nonneg : forall x, (0 <= x)%R -> entr x = (- (x * ln x))%R.
Proof.
  intros x Hx. unfold entr. destruct (Rlt_dec 0 x) as [|Hn]; [ring|].
  assert (x = 0%R) as -> by lra. ring.
Qed.

Lemma frequency_nonneg : forall l v, (0 <= frequency l v)%R.
Proof.
  intros l v. unfold frequency, Rdiv.
  destruct l as [|x l].
  - simpl. rewrite Rmult_0_l. lra.
  - apply Rmult_le_pos; [apply pos_INR|].
    left. apply Rinv_0_lt_compat. apply lt_0_INR. simpl. lia.
Qed.

(** The value appended to [one_hour_entropy] is the Shannon entropy of the
    values held by the deque. *)
Lemma counts_entropy_shannon : forall w c,
  consistent w c -> counts_entropy c = shannon_entropy (map snd w).
Proof.
  intros w c Hc. destruct c as [|kv c'] eqn:Ec.
  - rewrite (consistent_empty w [] Hc eq_refl). unfold shannon_entropy. simpl. ring.
  - rewrite <- Ec in *. assert (Hne : c <> []) by (rewrite Ec; discriminate).
    assert (Hw : w <> []) by (eapply consistent_nonempty; eassumption).
    assert (Htot : rsum (map (fun kv => IZR (snd kv)) c) = INR (length w)).
    { rewrite <- (map_map snd IZR), rsum_IZR, (consistent_total w c Hc).
      now rewrite <- INR_IZR_INZ. }
    assert (Hpos : (0 < INR (length w))%R).
    { apply lt_0_INR. destruct w; [congruence|simpl; lia]. }
    replace (counts_entropy c)
      with (scipy_entropy (normalize (map (fun kv => IZR (snd kv)) c)))
      by (rewrite Ec; reflexivity).
    rewrite scipy_entropy_normalize by (rewrite Htot; lra).
    unfold normalize. rewrite Htot, !map_map.
    unfold shannon_entropy. rewrite <- rsum_opp.
    rewrite <- (rsum_perm _ _ (Permutation_map _ (consistent_keys_perm w c Hc))).
    rewrite map_map. f_equal. apply map_ext_in. intros [k n] Hin. simpl.
    destruct Hc as (Hnd & Hp & Hget).
    assert (Hn : n = Z.of_nat (count_occ string_dec (map snd w) k))
      by now rewrite <- Hget, (counter_get_in c k n Hnd Hin).
    rewrite <- entr_nonneg by apply frequency_nonneg.
    unfold frequency. now rewrite Hn, <- INR_IZR_INZ, length_map.
Qed.

(** With at most one distinct value the entropy is zero. *)
Lemma shannon_entropy_degenerate : forall l,
  (length (nodup string_dec l) <= 1)%nat -> shannon_entropy l = 0%R.
Proof.
  intros l Hl. unfold shannon_entropy.
  destruct (nodup string_dec l) as [|v [|v' rest]] eqn:En; simpl in *; try lia.
  - ring.
  - assert (Hall : forall x, In x l -> x = v).
    { intros x Hx. apply (nodup_In string_dec) in Hx. rewrite En in Hx.
      destruct Hx as [->|[]]. reflexivity. }
    assert (Hcount : count_occ string_dec l v = length l).
    { clear En Hl. induction l as [|x l IH]; [reflexivity|]. simpl.
      destruct (string_dec x v) as [->|Hne].
      - f_equal. apply IH. intros y Hy. apply Hall. now right.
      - exfalso. apply Hne. apply Hall. now left. }
    assert (Hf : frequency l v = 1%R).
    { unfold frequency. rewrite Hcount. field.
      apply not_0_INR. destruct l; [|discriminate].
      simpl in En. discriminate. }
    rewrite Hf, ln_1. ring.
Qed.

End EntropyFacts.

Module LoopFacts.

Import Features WindowSpec CounterFacts WindowFacts FeaturesFacts EntropyFacts.

Lemma row_features_state : forall seen st row,
  fst (row_features seen st row) = fst (loop_step st row).
Proof.
  intros seen st row. unfold row_features.
  destruct (loop_step st row) as [st' [[u1 e1] u24]]. reflexivity.
Qed.

Lemma group_loop_app : forall r1 r2 before st,
  group_loop before st (r1 ++ r2) =
  group_loop before st r1 ++ group_loop (before ++ r1) (run_loop st r1) r2.
Proof.
  induction r1 as [|row r1 IH]; intros r2 before st; simpl.
  - now rewrite app_nil_r.
  - pose proof (row_features_state (before ++ [row]) st row) as Hst.
    destruct (row_features (before ++ [row]) st row) as [st' fv]. simpl in Hst.
    subst st'. simpl. f_equal. rewrite IH. now rewrite <- app_assoc.
Qed.

Lemma group_loop_length : forall rows before st,
  length (group_loop before st rows) = length rows.
Proof.
  induction rows as [|row rows IH]; intros before st; simpl; [reflexivity|].
  destruct (row_features (before ++ [row]) st row) as [st' fv]. simpl. now rewrite IH.
Qed.

(** The output for row [i] is computed from the rows up to [i] and the state
    left by the rows before it. *)
Lemma group_loop_nth : forall rows i row,
  nth_error rows i = Some row ->
  nth_error (group_features rows) i =
  Some (row, snd (row_features (firstn i rows ++ [row])
                               (run_loop initial_state (firstn i rows)) row)).
Proof.
  intros rows i row Hnth. unfold group_features.
  destruct (nth_error_split rows i Hnth) as (l1 & l2 & -> & Hlen).
  rewrite group_loop_app.
  rewrite nth_error_app2 by (rewrite group_loop_length; lia).
  rewrite group_loop_length, Hlen, Nat.sub_diag.
  rewrite <- Hlen, firstn_app, Nat.sub_diag, firstn_all. simpl.
  rewrite app_nil_r.
  destruct (row_features (l1 ++ [row]) (run_loop initial_state l1) row) as [st' fv].
  reflexivity.
Qed.

Lemma run_loop_consistent : forall rows st,
  state_consistent st -> state_consistent (run_loop st rows).
Proof.
  induction rows as [|row rows IH]; intros st Hst; simpl; [assumption|].
  apply IH. now apply loop_step_consistent.
Qed.

Lemma update_window_incl : forall w c cur delta p,
  In p (fst (update_window w c cur delta)) -> In p w.
Proof.
  induction w as [|[t s] w IH]; intros c cur delta p Hin; simpl in *; [assumption|].
  destruct (cur - t >? delta); [right; eauto|assumption].
Qed.

Lemma observe_from : forall w c ts delta v p,
  In p (fst (observe w c ts delta v)) -> In p w \/ fst p = ts.
Proof.
  intros w c ts delta v p. unfold observe.
  pose proof (update_window_incl w c ts delta p) as Hi.
  destruct (update_window w c ts delta) as [w' c']. simpl in Hi.
  destruct (nonempty_str v); simpl; intros Hin.
  - apply in_app_or in Hin as [Hin|[<-|[]]]; [left; auto|right; reflexivity].
  - left; auto.
Qed.

Lemma loop_step_from : forall rows st row,
  windows_from rows st -> windows_from (rows ++ [row]) (fst (loop_step st row)).
Proof.
  intros rows st row [H1 H24]. unfold loop_step.
  pose proof (observe_from (one_hour_window st) (one_hour_counts st)
                (timestamp row) (hours 1) (dst_ip row)) as A.
  pose proof (observe_from (twentyfour_window st) (twentyfour_counts st)
                (timestamp row) (hours 24) (file_name row)) as B.
  destruct (observe (one_hour_window st) _ _ _ _) as [w1 c1].
  destruct (observe (twentyfour_window st) _ _ _ _) as [w24 c24].
  simpl in *. split; intros p Hp; rewrite map_app; apply in_or_app.
  - destruct (A p Hp) as [Hin| ->]; [left; auto|right; now left].
  - destruct (B p Hp) as [Hin| ->]; [left; auto|right; now left].
Qed.

Lemma run_loop_from : forall rows before st,
  windows_from before st -> windows_from (before ++ rows) (run_loop st rows).
Proof.
  induction rows as [|row rows IH]; intros before st Hst; simpl.
  - now rewrite app_nil_r.
  - replace (before ++ row :: rows) with ((before ++ [row]) ++ rows)
      by now rewrite <- app_assoc.
    apply IH. now apply loop_step_from.
Qed.

(** When every entry is older than [max_delta], eviction empties both the
    deque and the counter. *)
Lemma update_window_all_old : forall w c cur delta,
  consistent w c ->
  (forall p, In p w -> delta < cur - fst p) ->
  update_window w c cur delta = ([], []).
Proof.
  induction w as [|[t s] w IH]; intros c cur delta Hc Hold; simpl.
  - destruct c as [|kv c]; [reflexivity|].
    exfalso. eapply (consistent_nonempty [] (kv :: c)); [eassumption|discriminate|reflexivity].
  - pose proof (Hold (t, s) (or_introl eq_refl)) as Ht. simpl in Ht.
    destruct (Z.gtb_spec (cur - t) delta); [|lia].
    apply IH; [eapply consistent_pop; eassumption|].
    intros p Hp. apply Hold. now right.
Qed.

Lemma observe_all_old : forall w c ts delta v,
  consistent w c ->
  (forall p, In p w -> delta < ts - fst p) ->
  observe w c ts delta v = observe [] [] ts delta v.
Proof.
  intros w c ts delta v Hc Hold. unfold observe.
  now rewrite (update_window_all_old w c ts delta Hc Hold).
Qed.

Lemma filter_rolling_old : forall offset pre row,
  0 < offset ->
  (forall e, In e pre -> offset <= timestamp row - timestamp e) ->
  filter (in_rolling offset (timestamp row)) (pre ++ [row]) = [row].
Proof.
  intros offset pre row Hpos Hold. rewrite filter_app. simpl.
  unfold in_rolling at 2. rewrite Z.sub_diag.
  destruct (Z.ltb_spec 0 offset); [|lia].
  replace (filter (in_rolling offset (timestamp row)) pre) with (@nil Event); [reflexivity|].
  symmetry. induction pre as [|e pre IH]; [reflexivity|]. simpl.
  unfold in_rolling at 1.
  pose proof (Hold e (or_introl eq_refl)).
  destruct (Z.ltb_spec (timestamp row - timestamp e) offset); [lia|].
  apply IH. intros e' He'. apply Hold. now right.
Qed.

(** A row that follows all earlier rows by more than 24 hours gets the
    feature vector it would get alone. *)
Lemma row_features_isolated : forall pre st row,
  state_consistent st ->
  windows_from pre st ->
  (forall e, In e pre -> hours 24 < timestamp row - timestamp e) ->
  snd (row_features (pre ++ [row]) st row) =
  snd (row_features [row] initial_state row).
Proof.
  intros pre st row [Hc1 Hc24] [Hf1 Hf24] Hold.
  assert (H24 : 0 < hours 24) by now apply hours_pos.
  assert (H1 : 0 < hours 1) by now apply hours_pos.
  assert (H1_24 : hours 1 < hours 24) by (unfold hours, NANOS_PER_SECOND; lia).
  assert (Hold_ts : forall t, In t (map timestamp pre) -> hours 24 < timestamp row - t).
  { intros t Ht. apply in_map_iff in Ht as (e & <- & He). now apply Hold. }
  unfold row_features, loop_step.
  rewrite (observe_all_old (one_hour_window st) (one_hour_counts st)) by
    (auto; intros p Hp; specialize (Hold_ts _ (Hf1 p Hp)); lia).
  rewrite (observe_all_old (twentyfour_window st) (twentyfour_counts st)) by
    (auto; intros p Hp; apply Hold_ts; auto).
  cbn [initial_state one_hour_window one_hour_counts twentyfour_window twentyfour_counts].
  destruct (observe [] [] (timestamp row) (hours 1) (dst_ip row)) as [w1 c1].
  destruct (observe [] [] (timestamp row) (hours 24) (file_name row)) as [w24 c24].
  cbn [snd].
  unfold failed_login_rate, rolling_mean, rolling_count, rolling_sum.
  rewrite (filter_rolling_old (hours 1) pre row H1) by
    (intros e He; specialize (Hold e He); lia).
  rewrite (filter_rolling_old (hours 24) pre row H24) by
    (intros e He; specialize (Hold e He); lia).
  pose proof (filter_rolling_old (hours 1) [] row H1 (fun e (H : In e []) => match H with end)) as E1.
  pose proof (filter_rolling_old (hours 24) [] row H24 (fun e (H : In e []) => match H with end)) as E24.
  cbn [app] in E1, E24. rewrite E1, E24.
  reflexivity.
Qed.

End LoopFacts.

Module FrameFacts.

Import Features WindowSpec FeaturesFacts WindowFacts LoopFacts Scoring PipelineSpec.

Lemma string_compare_refl : forall s, String.compare s s = Eq.
Proof.
  intros s. pose proof (String.compare_antisym s s) as H.
  destruct (String.compare s s); simpl in H; congruence.
Qed.

Lemma sort_values_sorted : forall u rows,
  same_user u rows -> timestamps_sorted rows -> sort_values rows = rows.
Proof.
  unfold same_user, timestamps_sorted.
  induction rows as [|e rows IH]; intros Hu Hs; [reflexivity|].
  pose proof (Forall_inv Hu) as He. pose proof (Forall_inv_tail Hu) as Hu'.
  simpl in He, Hs. apply StronglySorted_inv in Hs as [Hs Hle].
  simpl. rewrite IH by assumption.
  destruct rows as [|x xs]; [reflexivity|]. simpl.
  pose proof (Forall_inv Hu') as Hx. pose proof (Forall_inv Hle) as Hex.
  simpl in Hx, Hex.
  unfold row_leb. rewrite He, Hx, string_compare_refl.
  now apply Z.leb_le in Hex as ->.
Qed.

Lemma groupby_same_user : forall u e rows,
  same_user u (e :: rows) -> groupby_user (e :: rows) = [(u, e :: rows)].
Proof.
  intros u e rows. revert e.
  induction rows as [|x rows IH]; intros e Hu.
  - pose proof (Forall_inv Hu) as He. simpl in He. simpl. now rewrite He.
  - pose proof (Forall_inv Hu) as He. pose proof (Forall_inv_tail Hu) as Hu'.
    simpl in He.
    change (groupby_user (e :: x :: rows))
      with (match groupby_user (x :: rows) with
            | (u, g) :: gs =>
                if String.eqb (user_id e) u then (u, e :: g) :: gs
                else (user_id e, [e]) :: (u, g) :: gs
            | [] => [(user_id e, [e])]
            end).
    rewrite (IH x Hu').
    now rewrite He, String.eqb_refl.
Qed.

(** On the sorted log of one user the frame level does nothing: there is one
    group, already in order. *)
Lemma compute_batch_features_one_user : forall u rows,
  same_user u rows -> timestamps_sorted rows ->
  compute_batch_features rows = group_features rows.
Proof.
  intros u rows Hu Hs. unfold compute_batch_features.
  rewrite (sort_values_sorted u rows Hu Hs).
  destruct rows as [|e rows]; [reflexivity|].
  rewrite (groupby_same_user u e rows Hu). simpl. now rewrite app_nil_r.
Qed.

Lemma predict_features_lone : forall event,
  predict_features event = [lone_features (event_row event)].
Proof.
  intros event. unfold predict_features, event_df.
  rewrite compute_batch_features_single. unfold group_features, lone_features.
  simpl. destruct (row_features [event_row event] initial_state (event_row event)).
  reflexivity.
Qed.

Lemma streaming_features_map : forall log,
  streaming_features log = map (fun e => lone_features (event_row e)) log.
Proof.
  induction log as [|e log IH]; [reflexivity|].
  unfold streaming_features in *. simpl. now rewrite IH, predict_features_lone.
Qed.

Lemma one_entity_rows : forall log,
  one_entity log -> exists u, same_user u (map log_row log).
Proof.
  intros log [u Hu]. exists u. unfold same_user. rewrite Forall_map.
  exact Hu.
Qed.

Lemma chronological_rows : forall log,
  chronological log -> timestamps_sorted (map log_row log).
Proof.
  intros log H. unfold timestamps_sorted. now rewrite map_map.
Qed.

(** Taken alone, the row of the log and the row [predict_threat] builds give
    the same features when the event names its country: the default of
    [file_name] is the empty string, which the loop skips like an absent
    cell, and the default of [geo_country] is not used. *)
Lemma lone_features_log_row : forall event,
  carries_geo_country event = true ->
  lone_features (log_row event) = lone_features (event_row event).
Proof.
  intros [ts u src dst ty file b pr dv su geo] Hgeo.
  unfold carries_geo_country in Hgeo. cbn [ei_geo_country] in Hgeo.
  assert (Hfile : nonempty_str (Some (str_or file "")) = nonempty_str file).
  { destruct file as [[|c f]|]; reflexivity. }
  assert (Hcountry : str_or geo "US" = match geo with Some c => c | None => "US" end
                     /\ geo <> None).
  { destruct geo as [[|c g]|]; simpl in Hgeo; try discriminate Hgeo;
    split; [reflexivity|discriminate]. }
  destruct Hcountry as [Hcountry Hsome].
  unfold lone_features, row_features, loop_step, observe, log_row, event_row.
  unfold failed_login_rate, rolling_mean, rolling_count, rolling_sum, in_rolling.
  cbn [Features.timestamp Features.dst_ip Features.file_name Features.geo_country
       Features.event_type ei_timestamp ei_user_id ei_src_ip ei_dst_ip ei_event_type
       ei_file_name ei_bytes_transferred ei_geo_country filter].
  rewrite Hfile, Hcountry.
  rewrite !Z.sub_diag. destruct geo as [c|]; [reflexivity|congruence].
Qed.

End FrameFacts.

(** ** Batch and streaming feature extraction *)

Module PipelineFacts.

Import Features WindowSpec FeaturesFacts WindowFacts LoopFacts FrameFacts.
Import Scoring PipelineSpec Samples LocatedSamples.

(** Five failed logins and one success within twelve minutes: the rate at
    the success is 5/6, and the login count is 1. *)
Example brute_force_rate :
  (nth 5 (map failed_login_rate_1h (batch_features brute_force_log)) 0 == 5 # 6)%Q
  /\ map login_count_1h (batch_features brute_force_log) = [0; 0; 0; 0; 0; 1].
Proof.
  split; lazy; reflexivity.
Qed.

(** C1, as stated, fails: on two logins of one user ten minutes apart the
    batch vectors and the streaming vectors differ (the second batch vector
    counts two logins in the hour, the streaming one counts one). *)
Lemma batch_streaming_differ :
  one_entity two_logins /\ chronological two_logins
  /\ batch_features two_logins <> streaming_features two_logins.
Proof.
  split; [|split].
  - exists "user042". repeat constructor.
  - unfold chronological. simpl. repeat constructor; vm_compute; discriminate.
  - intros H. apply (f_equal (map login_count_1h)) in H.
    lazy in H. discriminate.
Qed.

(** A one-event log suffices once the event names no country: the frame of
    the log has an empty [geo_country] cell, which differs from 'US', and
    [predict_threat] replaces it by 'US'. *)
Lemma batch_streaming_differ_without_geo :
  map geo_anomaly_score (batch_features [login_at 0 "203.0.113.7"]) = [1]
  /\ map geo_anomaly_score (streaming_features [login_at 0 "203.0.113.7"]) = [0].
Proof.
  split; lazy; reflexivity.
Qed.

(** C1, amended: on the chronologically sorted log of one entity the batch
    vector (computed over the cells of the log) and the streaming vector
    ([/api/predict] on the event alone) of an event are identical whenever
    every earlier event of the log is more than 24 hours older (in
    particular at the first event) and the event carries a non-empty
    [geo_country]. *)
Theorem batch_streaming_agree_when_isolated :
  forall (log : list EventInput) (i : nat) (e : EventInput),
    one_entity log ->
    chronological log ->
    nth_error log i = Some e ->
    (forall j e', (j < i)%nat -> nth_error log j = Some e' ->
                  hours 24 < ei_timestamp e - ei_timestamp e') ->
    carries_geo_country e = true ->
    exists fv,
      nth_error (batch_features log) i = Some fv
      /\ nth_error (streaming_features log) i = Some fv.
Proof.
  intros log i e Hent Hchr Hnth Hold Hgeo.
  exists (lone_features (event_row e)).
  destruct (one_entity_rows log Hent) as [u Hu].
  pose proof (chronological_rows log Hchr) as Hs.
  split.
  - unfold batch_features.
    rewrite (compute_batch_features_one_user u _ Hu Hs).
    rewrite nth_error_map.
    rewrite (group_loop_nth _ i (log_row e)) by now apply map_nth_error.
    simpl. f_equal. rewrite <- (lone_features_log_row e Hgeo). unfold lone_features.
    apply row_features_isolated.
    + apply run_loop_consistent, initial_state_consistent.
    + apply (run_loop_from (firstn i (map log_row log)) [] initial_state).
      split; intros p [].
    + intros e0 He0. apply In_nth_error in He0 as [j Hj].
      rewrite nth_error_firstn in Hj.
      destruct (Nat.ltb_spec j i) as [Hlt|]; [|discriminate].
      rewrite nth_error_map in Hj.
      destruct (nth_error log j) as [e'|] eqn:Ej; [|discriminate].
      simpl in Hj. inversion Hj; subst e0. simpl.
      now apply (Hold j e').
  - rewrite streaming_features_map, nth_error_map, Hnth. reflexivity.
Qed.

Lemma batch_streaming_agree_when_isolated_witness :
  exists fv,
    nth_error (batch_features located_logins) 1 = Some fv
    /\ nth_error (streaming_features located_logins) 1 = Some fv.
Proof.
  apply (batch_streaming_agree_when_isolated located_logins 1
           (login_from "DE" (hours 25) "198.51.100.9")).
  - exists "user042". repeat constructor.
  - unfold chronological. simpl. repeat constructor; vm_compute; discriminate.
  - reflexivity.
  - intros j e' Hj Hn. destruct j as [|j]; [|lia].
    simpl in Hn. inversion Hn. vm_compute. reflexivity.
  - reflexivity.
Defined.

(** C9: the feature vector of [/api/predict] is computed from the one-row
    frame of the submitted event alone: the three counts are 0 or 1, the
    failed-login rate is 0 or 1, the byte sum is the event's own byte count
    (0 when absent) and the entropy is 0. *)
Theorem predict_features_single_event :
  forall event : EventInput,
    exists fv,
      predict_features event = map snd (group_features [event_row event])
      /\ predict_features event = [fv]
      /\ (login_count_1h fv = 0 \/ login_count_1h fv = 1)
      /\ (unique_dst_ips_1h fv = 0 \/ unique_dst_ips_1h fv = 1)
      /\ (unique_files_24h fv = 0 \/ unique_files_24h fv = 1)
      /\ (failed_login_rate_1h fv = 0%Q \/ failed_login_rate_1h fv = 1%Q)
      /\ bytes_transferred_1h fv =
           match ei_bytes_transferred event with Some b => b | None => 0 end
      /\ dst_ip_entropy_1h fv = 0%R.
Proof.
  intros event. exists (lone_features (event_row event)).
  assert (H1 : in_rolling (hours 1) (ei_timestamp event) (event_row event) = true)
    by (apply (in_rolling_self 1 (event_row event)); lia).
  split; [|split].
  - unfold predict_features, event_df. now rewrite compute_batch_features_single.
  - apply predict_features_lone.
  - unfold lone_features, row_features, loop_step, observe,
      failed_login_rate, rolling_sum.
    cbn [initial_state one_hour_window one_hour_counts twentyfour_window
         twentyfour_counts update_window].
    cbn [event_row Features.timestamp Features.dst_ip Features.file_name filter].
    rewrite H1.
    destruct (nonempty_str (ei_dst_ip event)) as [d|];
      destruct (nonempty_str (Some (str_or (ei_file_name event) ""))) as [f|];
      cbn [snd fst login_count_1h unique_dst_ips_1h unique_files_24h
           failed_login_rate_1h bytes_transferred_1h dst_ip_entropy_1h
           counter_incr length app map zsum fold_right];
      unfold is_login_success, is_login_fail, bytes_value;
      cbn [event_row Features.event_type Features.bytes_transferred];
      destruct (String.eqb_spec (ei_event_type event) "login_success") as [Es|Es];
      destruct (String.eqb_spec (ei_event_type event) "login_fail") as [Ef|Ef];
      try (rewrite Es in Ef; discriminate);
      rewrite ?counts_entropy_single;
      repeat split; cbn; auto; try lia;
      destruct (ei_bytes_transferred event); lia.
Qed.

End PipelineFacts.

(** ** Scoring *)

Module ScoringFacts.

Import Features Scoring PipelineSpec ScoringSpec Samples FrameFacts.

Lemma score_ge_iff : forall a b, score_ge a b = true <-> (b <= a)%Q.
Proof. intros a b. unfold score_ge. apply Qle_bool_iff. Qed.

Lemma score_ge_false_iff : forall a b, score_ge a b = false <-> (a < b)%Q.
Proof.
  intros a b. rewrite <- Bool.not_true_iff_false, score_ge_iff. split.
  - apply Qnot_le_lt.
  - apply Qlt_not_le.
Qed.

(** C4: with the default thresholds the level is critical exactly for scores
    of at least 0.85, high exactly on [0.70, 0.85), medium exactly on
    [0.50, 0.70) and low exactly below 0.50; 0.85 itself is critical and
    0.8499999 is high. *)
Theorem get_threat_level_default :
  forall score : Q,
    (get_threat_level default_thresholds score = "critical" <-> (0.85 <= score)%Q)
    /\ (get_threat_level default_thresholds score = "high"
        <-> (0.70 <= score)%Q /\ (score < 0.85)%Q)
    /\ (get_threat_level default_thresholds score = "medium"
        <-> (0.50 <= score)%Q /\ (score < 0.70)%Q)
    /\ (get_threat_level default_thresholds score = "low" <-> (score < 0.50)%Q)
    /\ get_threat_level default_thresholds 0.85 = "critical"
    /\ get_threat_level default_thresholds 0.8499999 = "high".
Proof.
  intros score. unfold get_threat_level.
  cbn [default_thresholds THRESHOLD_CRITICAL THRESHOLD_HIGH THRESHOLD_MEDIUM].
  assert (L1 : (0.50 < 0.70)%Q) by reflexivity.
  assert (L2 : (0.70 < 0.85)%Q) by reflexivity.
  destruct (score_ge score 0.85) eqn:Ec;
    [apply score_ge_iff in Ec|apply score_ge_false_iff in Ec];
  (destruct (score_ge score 0.70) eqn:Eh;
    [apply score_ge_iff in Eh|apply score_ge_false_iff in Eh]);
  (destruct (score_ge score 0.50) eqn:Em;
    [apply score_ge_iff in Em|apply score_ge_false_iff in Em]);
  repeat split; intros; try discriminate; try assumption;
  try reflexivity;
  try (exfalso; repeat match goal with H : _ /\ _ |- _ => destruct H end; lra).
Qed.

(** C5: with the three artifacts loaded, the score returned for an event is
    the mean [(rf + xgb) / 2] of the two estimators applied to the scaled
    feature vector of that event; it depends on nothing else (neither the
    thresholds nor the stored alerts). *)
Theorem ensemble_score_is_mean :
  forall (Scaled : Type) (rf xgb : Scaled -> Q) (scale : FeatureVector -> Scaled)
         (th : Thresholds) (event : EventInput) (db : Database.Db),
    exists db' resp,
      predict_threat th (mkModels (Some rf) (Some xgb) (Some scale)) event db
        = Ok (db', resp)
      /\ predict_features event = [lone_features (event_row event)]
      /\ resp_threat_score resp =
           ((rf (scale (lone_features (event_row event)))
             + xgb (scale (lone_features (event_row event)))) / 2)%Q
      /\ (resp_threat_score resp ==
            (rf (scale (lone_features (event_row event)))
             + xgb (scale (lone_features (event_row event)))) * (1 # 2))%Q.
Proof.
  intros Scaled rf xgb scale th event db.
  unfold predict_threat. cbn [rf_model xgb_model scaler].
  rewrite (predict_features_lone event). cbn [map combine fst snd].
  eexists. eexists. split; [reflexivity|]. cbn [resp_threat_score].
  split; [reflexivity|]. split; [reflexivity|].
  unfold Qdiv. apply Qeq_refl.
Qed.

Lemma dict_get_absent : forall (V : Type) (d : list (string * V)) key default,
  ~ In key (map fst d) -> dict_get d key default = default.
Proof.
  induction d as [|[k v] d IH]; intros key default Hk; simpl in *; [reflexivity|].
  destruct (String.eqb_spec key k) as [->|Hne]; [tauto|].
  apply IH. tauto.
Qed.

Lemma map_to_mitre_apt : forall event_type,
  (~ In event_type apt_event_types -> map_to_mitre "apt" event_type = sentinel_pair)
  /\ ~ In (map_to_mitre "apt" event_type) insider_pairs.
Proof.
  intros event_type. split.
  - intros Hk. unfold map_to_mitre. now apply dict_get_absent.
  - unfold map_to_mitre, insider_pairs. cbn.
    repeat (match goal with
            | |- context [String.eqb event_type ?k] =>
                destruct (String.eqb event_type k)
            end);
      intros H; repeat (destruct H as [H|H]; [discriminate|]); exact H.
Qed.

(** C10: [/api/predict] resolves MITRE context with the category "apt": the
    pair it returns is [map_to_mitre "apt"] of the event type, hence the
    sentinel ("TA0000", "T0000") for every event type outside the apt table
    (email_send among them) and never one of the insider pairs. *)
Theorem predict_mitre_is_apt :
  forall (Scaled : Type) (rf xgb : Scaled -> Q) (scale : FeatureVector -> Scaled)
         (th : Thresholds) (event : EventInput) (db : Database.Db),
    exists db' resp tactic technique,
      predict_threat th (mkModels (Some rf) (Some xgb) (Some scale)) event db
        = Ok (db', resp)
      /\ resp_mitre_tactic resp = Some tactic
      /\ resp_mitre_technique resp = Some technique
      /\ (tactic, technique) = map_to_mitre "apt" (ei_event_type event)
      /\ (~ In (ei_event_type event) apt_event_types ->
          (tactic, technique) = sentinel_pair)
      /\ ~ In (tactic, technique) insider_pairs
      /\ map_to_mitre "apt" "email_send" = sentinel_pair
      /\ In (map_to_mitre "insider" "email_send") insider_pairs.
Proof.
  intros Scaled rf xgb scale th event db.
  unfold predict_threat. cbn [rf_model xgb_model scaler].
  rewrite (predict_features_lone event). cbn [map combine fst snd].
  destruct (map_to_mitre_apt (ei_event_type event)) as [Hs Hi].
  destruct (map_to_mitre "apt" (ei_event_type event)) as [ta te] eqn:Em.
  do 2 eexists. exists ta, te.
  split; [reflexivity|]. cbn [resp_mitre_tactic resp_mitre_technique fst snd].
  repeat split; auto.
  cbn. right. right. now left.
Qed.

End ScoringFacts.

(** ** Correlation *)

Module CorrelatorFacts.

Import Database Correlator CorrelatorSpec IncidentNumberSpec FormatSamples ScoringSpec.

(** C7, as stated, fails: the last test is not for the stage name
    "Command & Control".  A tactic of that very name matches none of the
    tests and maps to "Other", and a tactic mentioning "c2", which holds none
    of the eleven stage names, maps to "Command & Control". *)
Lemma map_attack_stage_not_stage_names :
  stageOf (Some "Command & Control") = "Command & Control"
  /\ map_attack_stage (Some "Command & Control") = "Other"
  /\ stageOf (Some "C2 beacon") = "Other"
  /\ map_attack_stage (Some "C2 beacon") = "Command & Control"
  /\ map_attack_stage (Some "C2 beacon") <> stageOf (Some "C2 beacon").
Proof.
  repeat split; try (vm_compute; reflexivity).
  vm_compute. discriminate.
Qed.

(** C7, amended: the mapping is a case-insensitive first-match substring test
    in the fixed order of the eleven stages, the first ten tests looking for
    the lower-cased stage name and the eleventh for "command and control" or
    "c2" (yielding "Command & Control"); a tactic matching no test maps to
    "Other", an absent or empty tactic to "Unknown". *)
Theorem map_attack_stage_first_match :
  forall mitre_tactic : option string,
    map_attack_stage mitre_tactic =
    match mitre_tactic with
    | None => "Unknown"
    | Some s =>
        if String.eqb s "" then "Unknown"
        else match first_stage (lower s) with
             | Some stage => stage
             | None => "Other"
             end
    end.
Proof.
  intros [[|a s]|]; [reflexivity| |reflexivity].
  unfold first_stage, stage_patterns.
  cbn -[contains lower].
  rewrite !orb_false_r.
  repeat match goal with
         | |- context [contains ?p (lower (String a s))] =>
             destruct (contains p (lower (String a s))); cbn -[contains lower]
         end;
    reflexivity.
Qed.

Section WithFormatting.

Variable strftime : string -> Timestamp -> string.
Variable isoformat : Timestamp -> string.
Variable format_2f : Q -> string.
Variable str_of_len : nat -> string.


Lemma insert_alert_perm : forall key a l,
  Permutation (insert_alert key a l) (a :: l).
Proof.
  induction l as [|x xs IH]; simpl; [apply Permutation_refl|].
  destruct (key a <=? key x); [apply Permutation_refl|].
  eapply Permutation_trans; [apply perm_skip, IH|apply perm_swap].
Qed.

Lemma sort_alerts_perm : forall key l, Permutation (sort_alerts key l) l.
Proof.
  induction l as [|a l IH]; simpl; [constructor|].
  eapply Permutation_trans; [apply insert_alert_perm|now apply perm_skip].
Qed.

Lemma query_alerts_incl : forall db user ws we a,
  In a (query_alerts db user ws we) ->
  In a (alerts db) /\ in_query user ws we a = true.
Proof.
  intros db user ws we a Hin. unfold query_alerts in Hin.
  apply (Permutation_in _ (sort_alerts_perm _ _)) in Hin.
  now apply filter_In in Hin.
Qed.

Lemma link_alerts_linked : forall rows linked pk a,
  In a rows -> In a linked ->
  In (set_incident_id a pk) (link_alerts rows linked pk).
Proof.
  intros rows linked pk a Hrow Hlinked. unfold link_alerts.
  apply in_map_iff. exists a. split; [|assumption].
  replace (existsb (fun a0 => id a0 =? id a) linked) with true; [reflexivity|].
  symmetry. apply existsb_exists. exists a. split; [assumption|apply Z.eqb_refl].
Qed.

(** The flush fails when the number of the new incident is stored
    already. *)
Lemma create_incident_conflict : forall db now a rest,
  number_free strftime db now (a :: rest) = false ->
  create_incident strftime isoformat format_2f str_of_len db now (a :: rest)
  = Raise (IntegrityError "incidents.incident_number").
Proof.
  intros db now a rest Hfree. unfold create_incident. unfold number_free in Hfree.
  destruct (sort_alerts (ts_or_now now) (a :: rest)) as [|first sorted];
    [discriminate|].
  apply negb_false_iff in Hfree. unfold incident_number_at, ts_or_now in Hfree.
  now rewrite Hfree.
Qed.

(** On a non-empty list whose incident number is free [create_incident]
    adds one incident, whose chain has one entry per alert, and links every
    given alert that is a row of the session. *)
Lemma create_incident_nonempty : forall db now a rest,
  number_free strftime db now (a :: rest) = true ->
  exists db' inc,
    create_incident strftime isoformat format_2f str_of_len db now (a :: rest) = Ok (db', inc)
    /\ incidents db' = incidents db ++ [inc]
    /\ length (attack_chain inc) = length (a :: rest)
    /\ status inc = "open"
    /\ (forall x, In x (a :: rest) -> In x (alerts db) ->
          In (set_incident_id x (incident_pk inc)) (alerts db')).
Proof.
  intros db now a rest Hfree. unfold create_incident. unfold number_free in Hfree.
  pose proof (sort_alerts_perm (ts_or_now now) (a :: rest)) as Hperm.
  destruct (sort_alerts (ts_or_now now) (a :: rest)) as [|first sorted] eqn:Es.
  - apply Permutation_nil in Hperm. discriminate.
  - apply negb_true_iff in Hfree. unfold incident_number_at, ts_or_now in Hfree.
    rewrite Hfree.
    do 2 eexists. split; [reflexivity|]. cbn [incidents attack_chain alerts status incident_pk].
    split; [reflexivity|]. split; [|split; [reflexivity|]].
    + rewrite length_map. now apply Permutation_length.
    + intros x Hx Hrow. apply link_alerts_linked; [assumption|].
      eapply Permutation_in; [apply Permutation_sym; eassumption|assumption].
Qed.

(** What [correlate_alerts] does with the rows the query returns: nothing
    when there is none; otherwise one incident, unless its number is stored
    already, in which case the flush raises. *)
Lemma correlate_alerts_selected : forall db now user w,
  let selected := query_alerts db user (now - minutes w) now in
  (selected = [] -> correlate_alerts strftime isoformat format_2f str_of_len db now user w = Ok (db, None))
  /\ (selected <> [] -> number_free strftime db now selected = true ->
      exists db' inc,
        correlate_alerts strftime isoformat format_2f str_of_len db now user w = Ok (db', Some inc)
        /\ incidents db' = incidents db ++ [inc]
        /\ length (attack_chain inc) = length selected
        /\ (forall x, In x selected ->
              In (set_incident_id x (incident_pk inc)) (alerts db')))
  /\ (selected <> [] -> number_free strftime db now selected = false ->
      correlate_alerts strftime isoformat format_2f str_of_len db now user w
      = Raise (IntegrityError "incidents.incident_number")).
Proof.
  intros db now user w selected. unfold correlate_alerts.
  fold selected. split; [|split].
  - intros ->. reflexivity.
  - intros Hne Hfree. destruct selected as [|a rest] eqn:Es; [congruence|].
    destruct (create_incident_nonempty db now a rest Hfree)
      as (db' & inc & Hc & Hi & Hl & _ & Hlink).
    rewrite Hc.
    exists db', inc. repeat split; auto.
    intros x Hx. apply Hlink; [assumption|].
    apply (query_alerts_incl db user (now - minutes w) now).
    unfold selected in Es. now rewrite Es.
  - intros Hne Hfree. destruct selected as [|a rest] eqn:Es; [congruence|].
    now rewrite (create_incident_conflict db now a rest Hfree).
Qed.

(** C8: [create_incident] on an empty list raises the invalid-argument
    error, and no session state comes back from it; [correlate_alerts] whose
    query selects nothing returns none, without error, leaving the session
    as it was. *)
Theorem create_incident_empty_raises :
  forall db now user w,
    query_alerts db user (now - minutes w) now = [] ->
    create_incident strftime isoformat format_2f str_of_len db now [] = Raise (ValueError "create_incident requires at least one alert")
    /\ correlate_alerts strftime isoformat format_2f str_of_len db now user w = Ok (db, None).
Proof.
  intros db now user w Hsel. split; [reflexivity|].
  now apply (correlate_alerts_selected db now user w).
Qed.

(** C3, at the lower edge of the window: an alert of the user stamped
    exactly [now - window] lies outside [(now - window, now]], yet the query
    selects it and [correlate_alerts] builds an incident of chain length 1
    linked to it. *)
Theorem correlate_alerts_includes_window_start :
  filter (in_half_open_window "user042" boundary_now 60) (alerts boundary_db) = []
  /\ query_alerts boundary_db "user042" (boundary_now - minutes 60) boundary_now
     = [boundary_alert]
  /\ exists db' inc,
       correlate_alerts strftime isoformat format_2f str_of_len boundary_db boundary_now "user042" 60 = Ok (db', Some inc)
       /\ incidents db' = [inc]
       /\ length (attack_chain inc) = 1%nat
       /\ alerts db' = [set_incident_id boundary_alert (incident_pk inc)].
Proof.
  split; [vm_compute; reflexivity|]. split; [vm_compute; reflexivity|].
  do 2 eexists. split; [reflexivity|]. repeat split.
Qed.

End WithFormatting.

Lemma create_incident_empty_raises_witness :
  query_alerts empty_db "user042" (0 - minutes 60) 0 = []
  /\ create_incident plain_strftime plain_isoformat plain_format_2f plain_str_of_len
       empty_db 0 []
     = Raise (ValueError "create_incident requires at least one alert")
  /\ correlate_alerts plain_strftime plain_isoformat plain_format_2f plain_str_of_len
       empty_db 0 "user042" 60
     = Ok (empty_db, None).
Proof.
  split; [reflexivity|].
  apply (create_incident_empty_raises plain_strftime plain_isoformat
           plain_format_2f plain_str_of_len empty_db 0 "user042" 60).
  reflexivity.
Defined.

End CorrelatorFacts.

(** ** The sliding windows of the per-user loop *)

Module SlidingWindowFacts.

Import Features WindowSpec CounterFacts WindowFacts FeaturesFacts EntropyFacts.
Import LoopFacts FrameFacts Scoring PipelineSpec EntropyWindowSpec Samples.

(** The three values the loop appends for a row are read off the state it
    leaves. *)
Lemma row_features_loop : forall seen st row,
  let st' := fst (loop_step st row) in
  let fv := snd (row_features seen st row) in
  unique_dst_ips_1h fv = Z.of_nat (length (one_hour_counts st'))
  /\ dst_ip_entropy_1h fv = counts_entropy (one_hour_counts st')
  /\ unique_files_24h fv = Z.of_nat (length (twentyfour_counts st')).
Proof.
  intros seen st row. unfold row_features, loop_step.
  destruct (observe (one_hour_window st) _ _ _ _) as [w1 c1].
  destruct (observe (twentyfour_window st) _ _ _ _) as [w24 c24].
  simpl. auto.
Qed.

Lemma group_loop_entropy : forall rows before st,
  state_consistent st ->
  Forall2
    (fun rf st' =>
       dst_ip_entropy_1h (snd rf) = shannon_entropy (map snd (one_hour_window st'))
       /\ ((length (nodup string_dec (map snd (one_hour_window st'))) <= 1)%nat ->
           dst_ip_entropy_1h (snd rf) = 0%R))
    (group_loop before st rows) (loop_states st rows).
Proof.
  induction rows as [|row rows IH]; intros before st Hst; simpl; [constructor|].
  pose proof (row_features_state (before ++ [row]) st row) as Hs.
  pose proof (row_features_loop (before ++ [row]) st row) as (_ & He & _).
  pose proof (loop_step_consistent st row Hst) as Hst'.
  destruct (row_features (before ++ [row]) st row) as [st' fv]. simpl in Hs, He.
  subst st'. constructor; [|now apply IH].
  simpl. rewrite He.
  rewrite (counts_entropy_shannon _ _ (proj1 Hst')).
  split; [reflexivity|]. apply shannon_entropy_degenerate.
Qed.

(** At every row of a user's group, [dst_ip_entropy_1h] is the Shannon
    entropy (natural logarithm) of the frequency distribution of the
    destination addresses held by the one-hour deque after eviction and after
    the row's own address was appended; it is 0 when the deque holds no
    address or one distinct address. *)
Lemma dst_ip_entropy_of_deque :
  forall group : list Event,
    Forall2
      (fun rf st =>
         dst_ip_entropy_1h (snd rf) = shannon_entropy (map snd (one_hour_window st))
         /\ ((length (nodup string_dec (map snd (one_hour_window st))) <= 1)%nat ->
             dst_ip_entropy_1h (snd rf) = 0%R))
      (group_features group) (loop_states initial_state group).
Proof.
  intros group. apply group_loop_entropy, initial_state_consistent.
Qed.

(** *** The deque as a time window *)

Lemma filter_all : forall (A : Type) (f : A -> bool) l,
  (forall x, In x l -> f x = true) -> filter f l = l.
Proof.
  induction l as [|x l IH]; intros H; simpl; [reflexivity|].
  rewrite (H x (or_introl eq_refl)). f_equal. apply IH. intros y Hy. apply H. now right.
Qed.

Lemma update_window_filter : forall w c cur delta,
  StronglySorted Z.le (map fst w) ->
  fst (update_window w c cur delta) = filter (kept delta cur) w.
Proof.
  induction w as [|[t s] w IH]; intros c cur delta Hs; simpl; [reflexivity|].
  simpl in Hs. apply StronglySorted_inv in Hs as [Hs Hle].
  unfold kept at 1. simpl.
  destruct (Z.gtb_spec (cur - t) delta) as [Hold|Hkeep]; simpl.
  - now apply IH.
  - f_equal. symmetry. apply filter_all. intros [t' s'] Hin.
    rewrite Forall_forall in Hle.
    assert (t <= t') by (apply Hle; apply in_map_iff; now exists (t', s')).
    unfold kept. simpl. destruct (Z.gtb_spec (cur - t') delta); [lia|reflexivity].
Qed.

Lemma observations_app : forall col r1 r2,
  observations col (r1 ++ r2) = observations col r1 ++ observations col r2.
Proof. intros. unfold observations. apply flat_map_app. Qed.

Lemma observations_times : forall col rows p,
  In p (observations col rows) -> In (fst p) (map timestamp rows).
Proof.
  intros col rows p Hin. unfold observations in Hin.
  apply in_flat_map in Hin as (e & He & Hp).
  destruct (nonempty_str (col e)); [|contradiction].
  destruct Hp as [<-|[]]. simpl. now apply in_map.
Qed.

Lemma observations_sorted : forall col rows,
  timestamps_sorted rows -> StronglySorted Z.le (map fst (observations col rows)).
Proof.
  unfold timestamps_sorted.
  induction rows as [|e rows IH]; intros Hs; simpl; [constructor|].
  simpl in Hs. apply StronglySorted_inv in Hs as [Hs Hle].
  destruct (nonempty_str (col e)); simpl; [|now apply IH].
  constructor; [now apply IH|].
  rewrite Forall_forall in *. intros t Ht.
  apply in_map_iff in Ht as (p & <- & Hp).
  apply Hle. eapply observations_times; eassumption.
Qed.

Lemma filter_sorted : forall (f : Timestamp * string -> bool) w,
  StronglySorted Z.le (map fst w) -> StronglySorted Z.le (map fst (filter f w)).
Proof.
  induction w as [|p w IH]; intros Hs; simpl; [constructor|].
  simpl in Hs. apply StronglySorted_inv in Hs as [Hs Hle].
  destruct (f p); simpl; [|now apply IH].
  constructor; [now apply IH|].
  rewrite Forall_forall in *. intros t Ht. apply Hle.
  apply in_map_iff in Ht as (q & <- & Hq). apply filter_In in Hq as [Hq _].
  now apply in_map.
Qed.

Lemma filter_kept_mono : forall delta t1 t2 (l : Window),
  t1 <= t2 ->
  filter (kept delta t2) (filter (kept delta t1) l) = filter (kept delta t2) l.
Proof.
  intros delta t1 t2 l Hle.
  assert (Himp : forall p, kept delta t2 p = true -> kept delta t1 p = true).
  { intros p. unfold kept.
    destruct (Z.gtb_spec (t2 - fst p) delta); destruct (Z.gtb_spec (t1 - fst p) delta);
      simpl; intros; try reflexivity; try discriminate; lia. }
  induction l as [|p l IH]; [reflexivity|]. simpl.
  destruct (kept delta t1 p) eqn:E1; simpl.
  - now rewrite IH.
  - rewrite IH. destruct (kept delta t2 p) eqn:E2; [|reflexivity].
    apply Himp in E2. congruence.
Qed.

Lemma run_loop_snoc : forall st rows row,
  run_loop st (rows ++ [row]) = fst (loop_step (run_loop st rows) row).
Proof. intros. unfold run_loop. now rewrite fold_left_app. Qed.

Lemma loop_step_one_hour : forall st row,
  one_hour_window (fst (loop_step st row)) =
  fst (update_window (one_hour_window st) (one_hour_counts st) (timestamp row) (hours 1))
  ++ observations dst_ip [row].
Proof.
  intros st row. unfold loop_step.
  destruct (observe (twentyfour_window st) (twentyfour_counts st)
              (timestamp row) (hours 24) (file_name row)) as [w24 c24].
  unfold observe, observations. cbn [flat_map]. rewrite app_nil_r.
  destruct (update_window (one_hour_window st) (one_hour_counts st)
              (timestamp row) (hours 1)) as [w c].
  destruct (nonempty_str (dst_ip row)); simpl; [reflexivity|].
  now rewrite app_nil_r.
Qed.

(** After a chronological run of rows the one-hour deque holds the
    destination observations of the run whose age, at the last row, is at
    most one hour. *)
Lemma run_loop_one_hour_window : forall pre row,
  timestamps_sorted (pre ++ [row]) ->
  one_hour_window (run_loop initial_state (pre ++ [row])) =
  filter (kept (hours 1) (timestamp row)) (observations dst_ip (pre ++ [row])).
Proof.
  assert (Hself : forall row,
    filter (kept (hours 1) (timestamp row)) (observations dst_ip [row])
    = observations dst_ip [row]).
  { intros row. apply filter_all. intros p Hp.
    apply observations_times in Hp. simpl in Hp. destruct Hp as [Hp|[]].
    unfold kept. rewrite <- Hp, Z.sub_diag. reflexivity. }
  induction pre as [|row' pre' IH] using rev_ind; intros row Hs.
  - simpl. rewrite loop_step_one_hour. simpl. now rewrite Hself.
  - rewrite run_loop_snoc, loop_step_one_hour.
    assert (Hs' : timestamps_sorted (pre' ++ [row'])).
    { unfold timestamps_sorted in *. rewrite map_app in Hs.
      revert Hs. generalize (map timestamp (pre' ++ [row'])) as l.
      induction l as [|x l IHl]; intros Hs; simpl in *; [constructor|].
      apply StronglySorted_inv in Hs as [Hs Hle]. constructor; [now apply IHl|].
      apply Forall_app in Hle. tauto. }
    assert (Hle : timestamp row' <= timestamp row).
    { unfold timestamps_sorted in Hs. rewrite <- app_assoc, map_app in Hs. simpl in Hs.
      clear - Hs. induction (map timestamp pre') as [|x l IHl]; simpl in Hs.
      - apply StronglySorted_inv in Hs as [_ Hle]. now inversion Hle.
      - apply StronglySorted_inv in Hs as [Hs _]. now apply IHl. }
    rewrite (IH row' Hs').
    rewrite update_window_filter
      by (apply filter_sorted, observations_sorted; assumption).
    rewrite (observations_app dst_ip (pre' ++ [row']) [row]), filter_app, Hself.
    f_equal. now apply filter_kept_mono.
Qed.

Lemma firstn_S_nth : forall (A : Type) (l : list A) i x,
  nth_error l i = Some x -> firstn (S i) l = firstn i l ++ [x].
Proof.
  induction l as [|a l IH]; intros [|i] x H; simpl in H; try discriminate.
  - inversion H. reflexivity.
  - change (firstn (S (S i)) (a :: l)) with (a :: firstn (S i) l).
    rewrite (IH i x H). reflexivity.
Qed.

(** On the chronological rows of one user, [unique_dst_ips_1h] of a row is
    the number of distinct non-empty destination addresses among the rows up
    to it stamped in the closed window [[ts - 1h, ts]]. *)
Lemma unique_dst_ips_closed_window : forall rows i row,
  timestamps_sorted rows ->
  nth_error rows i = Some row ->
  exists fv,
    nth_error (group_features rows) i = Some (row, fv)
    /\ unique_dst_ips_1h fv = unique_dst_ips_closed (firstn (S i) rows) (timestamp row).
Proof.
  intros rows i row Hs Hnth. eexists. split; [now apply group_loop_nth|].
  pose proof (row_features_loop (firstn i rows ++ [row])
                (run_loop initial_state (firstn i rows)) row) as (Hu & _ & _).
  simpl in Hu. rewrite Hu. rewrite <- run_loop_snoc.
  pose proof (firstn_S_nth _ rows i row Hnth) as Hpre.
  assert (Hsp : timestamps_sorted (firstn i rows ++ [row])).
  { rewrite <- Hpre. unfold timestamps_sorted in *.
    rewrite <- (firstn_skipn (S i) rows), map_app in Hs.
    revert Hs. generalize (map timestamp (firstn (S i) rows)) as l.
    induction l as [|x l IHl]; intros Hs; simpl in *; [constructor|].
    apply StronglySorted_inv in Hs as [Hs Hle]. constructor; [now apply IHl|].
    apply Forall_app in Hle. tauto. }
  pose proof (run_loop_consistent (firstn i rows ++ [row]) initial_state
                initial_state_consistent) as [Hc _].
  rewrite (consistent_length _ _ Hc).
  rewrite (run_loop_one_hour_window _ _ Hsp).
  unfold unique_dst_ips_closed. now rewrite Hpre.
Qed.

(** C2, at the edge of the window: of two logins of one user exactly one
    hour apart, to two addresses, the second gets [unique_dst_ips_1h = 2]:
    the observation aged exactly one hour is still counted, where the
    half-open window [(ts - 1h, ts]] holds one address.  The rolling count of
    logins of the same row, [login_count_1h], is 1: it leaves that
    observation out. *)
Theorem unique_dst_ips_counts_hour_old_observation :
  map unique_dst_ips_1h (batch_features boundary_logins) = [1; 2]
  /\ unique_dst_ips_half_open (map event_row boundary_logins) (hours 1) = 1
  /\ unique_dst_ips_closed (map event_row boundary_logins) (hours 1) = 2
  /\ map login_count_1h (batch_features boundary_logins) = [1; 1].
Proof.
  repeat split; lazy; reflexivity.
Qed.

(** Two values seen once each: the entropy is [ln 2]. *)
Lemma counts_entropy_two : forall a b : string,
  counts_entropy [(a, 1); (b, 1)] = ln 2.
Proof.
  intros a b. unfold counts_entropy, scipy_entropy, normalize.
  cbn [map snd rsum fold_right].
  replace (1 / (1 + (1 + 0)))%R with (/ 2)%R by lra.
  replace (/ 2 / (/ 2 + (/ 2 + 0)))%R with (/ 2)%R by lra.
  unfold entr. destruct (Rlt_dec 0 (/ 2)) as [_|Hn]; [|lra].
  rewrite ln_Rinv by lra. lra.
Qed.

Lemma shannon_entropy_two : forall a b : string,
  a <> b -> shannon_entropy [a; b] = ln 2.
Proof.
  intros a b Hab.
  assert (Hba : b <> a) by congruence.
  unfold shannon_entropy, frequency. cbn [nodup].
  destruct (in_dec string_dec a [b]) as [[Heq|[]]|_]; [congruence|].
  destruct (in_dec string_dec b []) as [[]|_].
  cbn [map rsum fold_right count_occ length].
  destruct (string_dec a a) as [_|Hn]; [|congruence].
  destruct (string_dec b a) as [Heq|_]; [congruence|].
  destruct (string_dec a b) as [Heq|_]; [congruence|].
  destruct (string_dec b b) as [_|Hn]; [|congruence].
  replace (INR 1 / INR 2)%R with (/ 2)%R by (simpl; lra).
  rewrite ln_Rinv by lra. lra.
Qed.

(** C6, at the edge of the window: of two logins of one user exactly one
    hour apart, to two addresses, the second gets [dst_ip_entropy_1h = ln 2],
    which is not 0: the observation aged exactly one hour is still in the
    deque.  The window [(ts - 1h, ts]] of that row holds one distinct
    address, whose distribution has entropy 0; [ln 2] is the entropy over the
    closed window [[ts - 1h, ts]]. *)
Theorem dst_ip_entropy_counts_hour_old_observation :
  nth_error (map dst_ip_entropy_1h (batch_features boundary_logins)) 1 = Some (ln 2)
  /\ (0 < ln 2)%R
  /\ unique_dst_ips_half_open (map log_row boundary_logins) (hours 1) = 1
  /\ dst_ip_entropy_half_open (map log_row boundary_logins) (hours 1) = 0%R
  /\ dst_ip_entropy_closed (map log_row boundary_logins) (hours 1) = ln 2.
Proof.
  split; [|split; [|split; [|split]]].
  - unfold batch_features. rewrite nth_error_map.
    rewrite (compute_batch_features_one_user "user042")
      by (unfold same_user, timestamps_sorted; simpl;
          repeat constructor; vm_compute; discriminate).
    rewrite nth_error_map.
    rewrite (group_loop_nth _ 1 (log_row (login_at (hours 1) "198.51.100.9")))
      by reflexivity.
    cbn [option_map snd]. f_equal.
    pose proof (row_features_loop
                  (firstn 1 (map log_row boundary_logins)
                   ++ [log_row (login_at (hours 1) "198.51.100.9")])
                  (run_loop initial_state (firstn 1 (map log_row boundary_logins)))
                  (log_row (login_at (hours 1) "198.51.100.9"))) as (_ & He & _).
    cbv zeta in He. rewrite He.
    match goal with
    | |- counts_entropy ?c = _ => let c' := eval lazy in c in change c with c'
    end.
    apply counts_entropy_two.
  - pose proof ln_lt_2. lra.
  - lazy. reflexivity.
  - unfold dst_ip_entropy_half_open.
    match goal with
    | |- shannon_entropy ?l = _ => let l' := eval lazy in l in change l with l'
    end.
    apply shannon_entropy_degenerate. vm_compute. lia.
  - unfold dst_ip_entropy_closed.
    match goal with
    | |- shannon_entropy ?l = _ => let l' := eval lazy in l in change l with l'
    end.
    apply shannon_entropy_two. discriminate.
Qed.

End SlidingWindowFacts.

(** ** Further properties of the feature extractor *)

Module FeatureBounds.

Import Features WindowSpec CounterFacts WindowFacts FeaturesFacts EntropyFacts.
Import LoopFacts FrameFacts Scoring PipelineSpec Samples SlidingWindowFacts.
Import FeatureBoundsSpec.

(** After every row of a group each Counter is the frequency table of its
    deque: distinct keys, positive counts, each count the number of
    occurrences of the key in the deque.  Eviction therefore never meets a
    missing key and never leaves a count at or below zero. *)
Theorem loop_counters_match_deques :
  forall rows : list Event,
    Forall state_consistent (loop_states initial_state rows).
Proof.
  intros rows. apply loop_states_consistent, initial_state_consistent.
Qed.

Lemma zsum_nonneg : forall l, Forall (fun x => 0 <= x) l -> 0 <= zsum l.
Proof.
  induction 1; simpl; lia.
Qed.

Lemma zsum_le : forall (A : Type) (f g : A -> Z) l,
  (forall x, f x <= g x) -> zsum (map f l) <= zsum (map g l).
Proof.
  intros A f g l H. induction l as [|x l IH]; simpl; [lia|].
  specialize (H x). lia.
Qed.

Lemma zsum_map_nonneg : forall (A : Type) (f : A -> Z) l,
  (forall x, 0 <= f x) -> 0 <= zsum (map f l).
Proof.
  intros A f l H. induction l as [|x l IH]; simpl; [lia|].
  specialize (H x). lia.
Qed.

Lemma zsum_map_le_length : forall (A : Type) (f : A -> Z) l,
  (forall x, f x <= 1) -> zsum (map f l) <= Z.of_nat (length l).
Proof.
  intros A f l H. induction l as [|x l IH]; simpl length; simpl map; simpl zsum; [lia|].
  specialize (H x). lia.
Qed.

Lemma ratio_unit_interval : forall a b : Z,
  0 <= a <= b -> 0 < b -> (0 <= inject_Z a / inject_Z b <= 1)%Q.
Proof.
  intros a b [Ha Hab] Hb.
  assert (Hbq : (0 < inject_Z b)%Q) by (unfold Qlt, inject_Z; simpl; lia).
  split.
  - apply Qle_shift_div_l; [assumption|]. rewrite Qmult_0_l.
    unfold Qle, inject_Z; simpl; lia.
  - apply Qle_shift_div_r; [assumption|]. rewrite Qmult_1_l.
    unfold Qle, inject_Z; simpl; lia.
Qed.

Lemma is_login_fail_01 : forall e, 0 <= is_login_fail e <= 1.
Proof. intros e. unfold is_login_fail. destruct (String.eqb _ _); lia. Qed.

Lemma is_login_success_01 : forall e, 0 <= is_login_success e <= 1.
Proof. intros e. unfold is_login_success. destruct (String.eqb _ _); lia. Qed.

Lemma is_off_hours_01 : forall e, 0 <= is_off_hours e <= 1.
Proof. intros e. unfold is_off_hours. cbv zeta. destruct (_ || _); lia. Qed.

Lemma failed_login_rate_bounds : forall seen current,
  (0 <= failed_login_rate seen current <= 1)%Q.
Proof.
  intros seen current. unfold failed_login_rate. cbv zeta.
  set (logins := rolling_sum (hours 1) (fun e => is_login_success e + is_login_fail e) seen current).
  set (fails := rolling_sum (hours 1) is_login_fail seen current).
  assert (Hf : 0 <= fails <= logins).
  { unfold fails, logins, rolling_sum. split.
    - apply zsum_map_nonneg. intros e. apply is_login_fail_01.
    - apply zsum_le. intros e. pose proof (is_login_success_01 e). lia. }
  destruct (Z.eqb_spec logins 0) as [|Hne].
  - split; discriminate.
  - apply ratio_unit_interval; lia.
Qed.

Lemma rolling_mean_bounds : forall offset col seen current,
  (forall e, 0 <= col e <= 1) ->
  (0 <= rolling_mean offset col seen current <= 1)%Q.
Proof.
  intros offset col seen current Hcol. unfold rolling_mean. cbv zeta.
  unfold rolling_count, rolling_sum.
  set (rows := filter (in_rolling offset current) seen).
  destruct (Z.eqb_spec (Z.of_nat (length rows)) 0) as [|Hne].
  - split; discriminate.
  - apply ratio_unit_interval; [|lia]. split.
    + apply zsum_map_nonneg. intros e. apply Hcol.
    + apply zsum_map_le_length. intros e. apply Hcol.
Qed.

Lemma row_features_bounds : forall seen st row,
  feature_bounds (snd (row_features seen st row)).
Proof.
  intros seen st row. unfold row_features, loop_step.
  destruct (observe (one_hour_window st) _ _ _ _) as [w1 c1].
  destruct (observe (twentyfour_window st) _ _ _ _) as [w24 c24].
  cbn [snd]. unfold feature_bounds.
  cbn [failed_login_rate_1h off_hours_ratio_24h login_count_1h unique_dst_ips_1h
       unique_files_24h privilege_change_flag geo_anomaly_score].
  split; [apply failed_login_rate_bounds|].
  split; [apply rolling_mean_bounds, is_off_hours_01|].
  split; [apply zsum_map_nonneg; intros e; apply is_login_success_01|].
  split; [lia|]. split; [lia|].
  split.
  - destruct (String.eqb _ _); auto.
  - destruct (geo_country row) as [c|]; [destruct (String.eqb c "US")|]; auto.
Qed.

Lemma group_loop_forall : forall (P : FeatureVector -> Prop),
  (forall seen st row, P (snd (row_features seen st row))) ->
  forall rows before st, Forall (fun rf => P (snd rf)) (group_loop before st rows).
Proof.
  intros P HP. induction rows as [|row rows IH]; intros before st; simpl; [constructor|].
  pose proof (HP (before ++ [row]) st row) as H.
  destruct (row_features (before ++ [row]) st row) as [st' fv].
  constructor; [exact H|apply IH].
Qed.

Lemma compute_batch_features_forall : forall (P : FeatureVector -> Prop),
  (forall seen st row, P (snd (row_features seen st row))) ->
  forall df, Forall (fun rf => P (snd rf)) (compute_batch_features df).
Proof.
  intros P HP df. unfold compute_batch_features.
  induction (groupby_user (sort_values df)) as [|ug groups IH]; simpl; [constructor|].
  apply Forall_app. split; [apply group_loop_forall, HP|exact IH].
Qed.

End FeatureBounds.

Module FrameProperties.

Import Features WindowSpec CounterFacts WindowFacts FeaturesFacts EntropyFacts.
Import LoopFacts FrameFacts Scoring PipelineSpec Samples SlidingWindowFacts.
Import FeatureBoundsSpec FeatureBounds.

(** On every frame, every feature vector has both ratios in [0, 1], the
    three counts non-negative and the two flags 0 or 1. *)
Theorem feature_vectors_within_bounds :
  forall df : list Event,
    Forall (fun rf => feature_bounds (snd rf)) (compute_batch_features df).
Proof.
  intros df. apply compute_batch_features_forall. apply row_features_bounds.
Qed.

Lemma group_loop_rows : forall rows before st,
  map fst (group_loop before st rows) = rows.
Proof.
  induction rows as [|row rows IH]; intros before st; simpl; [reflexivity|].
  destruct (row_features (before ++ [row]) st row) as [st' fv].
  simpl. now rewrite IH.
Qed.

Lemma groupby_user_concat : forall df,
  concat (map snd (groupby_user df)) = df.
Proof.
  induction df as [|e df IH]; [reflexivity|].
  change (groupby_user (e :: df))
    with (match groupby_user df with
          | (u, g) :: gs =>
              if String.eqb (user_id e) u then (u, e :: g) :: gs
              else (user_id e, [e]) :: (u, g) :: gs
          | [] => [(user_id e, [e])]
          end).
  destruct (groupby_user df) as [|[u g] gs].
  - simpl in *. now rewrite <- IH.
  - destruct (String.eqb (user_id e) u); simpl in *; now rewrite <- IH.
Qed.

Lemma insert_row_perm : forall e l, Permutation (insert_row e l) (e :: l).
Proof.
  induction l as [|x xs IH]; simpl; [apply Permutation_refl|].
  destruct (row_leb e x); [apply Permutation_refl|].
  eapply Permutation_trans; [apply perm_skip, IH|apply perm_swap].
Qed.

Lemma sort_values_perm : forall df, Permutation (sort_values df) df.
Proof.
  induction df as [|e df IH]; simpl; [constructor|].
  eapply Permutation_trans; [apply insert_row_perm|now apply perm_skip].
Qed.

(** [compute_batch_features] returns one feature row per row of the frame:
    the rows of its result are the rows of the frame in the order of
    [sort_values], a permutation of the frame; no row is dropped or
    repeated. *)
Theorem compute_batch_features_rows :
  forall df : list Event,
    map fst (compute_batch_features df) = sort_values df
    /\ Permutation (map fst (compute_batch_features df)) df
    /\ length (compute_batch_features df) = length df.
Proof.
  intros df.
  assert (H : map fst (compute_batch_features df) = sort_values df).
  { unfold compute_batch_features.
    rewrite <- (groupby_user_concat (sort_values df)) at 2.
    induction (groupby_user (sort_values df)) as [|ug groups IH]; [reflexivity|].
    simpl. rewrite map_app, IH. f_equal. apply group_loop_rows. }
  split; [exact H|]. split.
  - rewrite H. apply sort_values_perm.
  - rewrite <- (length_map fst), H. apply Permutation_length, sort_values_perm.
Qed.

(** *** Entropy bounds *)

Lemma ln_le_minus_1 : forall y, (0 < y)%R -> (ln y <= y - 1)%R.
Proof.
  intros y Hy. pose proof (exp_ineq1_le (ln y)) as H.
  rewrite exp_ln in H by assumption. lra.
Qed.

Lemma entr_pos_term : forall p, (0 < p <= 1)%R -> (0 <= entr p)%R.
Proof.
  intros p [Hp Hp1]. unfold entr. destruct (Rlt_dec 0 p); [|lra].
  assert (ln p <= 0)%R.
  { pose proof (ln_le_minus_1 p Hp). lra. }
  nra.
Qed.

(** One term of the entropy against its share of [ln m]. *)
Lemma entr_term_bound : forall p m,
  (0 < p)%R -> (0 < m)%R -> (entr p <= p * ln m + (/ m - p))%R.
Proof.
  intros p m Hp Hm. unfold entr. destruct (Rlt_dec 0 p); [|lra].
  assert (Hpos : (0 < / (m * p))%R)
    by (apply Rinv_0_lt_compat; nra).
  pose proof (ln_le_minus_1 (/ (m * p)) Hpos) as H.
  rewrite ln_Rinv in H by nra.
  rewrite ln_mult in H by assumption.
  assert (Hinv : (p * / (m * p) = / m)%R) by (field; lra).
  assert (Hmul : (p * (- (ln m + ln p)) <= p * (/ (m * p) - 1))%R)
    by (apply Rmult_le_compat_l; lra).
  replace (p * (/ (m * p) - 1))%R with (/ m - p)%R in Hmul
    by (rewrite Rmult_minus_distr_l, Hinv; ring).
  lra.
Qed.

Lemma rsum_entr_upper : forall (ps : list R) (m : R),
  (0 < m)%R -> Forall (fun p => (0 < p)%R) ps ->
  (rsum (map entr ps) <= rsum ps * ln m + (INR (length ps) * / m - rsum ps))%R.
Proof.
  intros ps m Hm Hps. induction Hps as [|p ps Hp Hps IH].
  - simpl. lra.
  - cbn [map rsum fold_right length]. rewrite S_INR.
    pose proof (entr_term_bound p m Hp Hm). change (fold_right Rplus 0%R) with rsum in *.
    lra.
Qed.

Lemma rsum_entr_lower : forall ps : list R,
  Forall (fun p => (0 < p <= 1)%R) ps -> (0 <= rsum (map entr ps))%R.
Proof.
  induction 1 as [|p ps Hp Hps IH]; simpl; [lra|].
  pose proof (entr_pos_term p Hp). change (fold_right Rplus 0%R) with rsum in *. lra.
Qed.

Lemma rsum_nonneg_le : forall l x,
  Forall (fun y => (0 <= y)%R) l -> In x l -> (x <= rsum l)%R.
Proof.
  induction 1 as [|y l Hy Hl IH]; intros Hin; [contradiction|].
  simpl. change (fold_right Rplus 0%R) with rsum.
  assert (0 <= rsum l)%R.
  { clear - Hl. induction Hl; simpl; [lra|]. change (fold_right Rplus 0%R) with rsum. lra. }
  destruct Hin as [->|Hin]; [lra|]. specialize (IH Hin). lra.
Qed.

(** The entropy of a counter with positive counts lies between 0 and the
    logarithm of the number of its keys. *)
Lemma counts_entropy_bounds : forall c : Counter,
  (forall k n, In (k, n) c -> 0 < n) ->
  (0 <= counts_entropy c)%R
  /\ (c <> [] -> (counts_entropy c <= ln (INR (length c)))%R).
Proof.
  intros c Hpos. destruct c as [|kv c'].
  - simpl. split; [lra|congruence].
  - remember (kv :: c') as c eqn:Ec in *.
    assert (Hne : c <> []) by (subst c; discriminate).
    clear Ec kv c'.
    set (vals := map (fun kv : string * Z => IZR (snd kv)) c).
    assert (Hvals : Forall (fun v => (0 < v)%R) vals).
    { unfold vals. rewrite Forall_map. apply Forall_forall. intros [k n] Hin.
      simpl. apply IZR_lt. eapply Hpos; eassumption. }
    assert (Hvne : vals <> []) by (unfold vals; destruct c; [congruence|discriminate]).
    assert (Htot : (0 < rsum vals)%R).
    { destruct vals as [|v vs]; [congruence|].
      inversion Hvals as [|? ? Hv Hvs]; subst. simpl.
      assert (0 <= rsum vs)%R.
      { clear - Hvs. induction Hvs; simpl; [lra|].
        change (fold_right Rplus 0%R) with rsum. lra. }
      change (fold_right Rplus 0%R) with rsum. lra. }
    assert (Hce : counts_entropy c = rsum (map entr (normalize vals))).
    { destruct c; [congruence|]. unfold counts_entropy. fold vals.
      apply scipy_entropy_normalize. lra. }
    assert (Hprobs : Forall (fun p => (0 < p <= 1)%R) (normalize vals)).
    { unfold normalize. rewrite Forall_map. apply Forall_forall. intros v Hv.
      assert (0 < v)%R by (rewrite Forall_forall in Hvals; auto).
      assert (v <= rsum vals)%R.
      { apply rsum_nonneg_le; [|assumption].
        eapply Forall_impl; [|exact Hvals]. simpl. intros; lra. }
      split.
      - apply Rdiv_lt_0_compat; assumption.
      - unfold Rdiv. apply (Rmult_le_reg_r (rsum vals)); [assumption|].
        rewrite Rmult_assoc, Rinv_l by lra. lra. }
    rewrite Hce. split; [now apply rsum_entr_lower|]. intros _.
    assert (Hm : (0 < INR (length c))%R).
    { apply lt_0_INR. destruct c; [congruence|simpl; lia]. }
    pose proof (rsum_entr_upper (normalize vals) (INR (length c)) Hm) as Hup.
    assert (Hp0 : Forall (fun p => (0 < p)%R) (normalize vals))
      by (eapply Forall_impl; [|exact Hprobs]; simpl; intros; lra).
    specialize (Hup Hp0).
    rewrite (rsum_normalize vals) in Hup by lra.
    assert (Hlen : length (normalize vals) = length c)
      by (unfold normalize, vals; now rewrite !length_map).
    rewrite Hlen in Hup.
    assert (INR (length c) * / INR (length c) = 1)%R by (field; lra).
    lra.
Qed.

(** On every frame, [dst_ip_entropy_1h] is non-negative, is 0 when
    [unique_dst_ips_1h] is 0, and is otherwise at most the natural logarithm
    of [unique_dst_ips_1h], the entropy of a uniform distribution over that
    many addresses. *)
Theorem dst_ip_entropy_bounds :
  forall df : list Event,
    Forall
      (fun rf =>
         (0 <= dst_ip_entropy_1h (snd rf))%R
         /\ (unique_dst_ips_1h (snd rf) = 0 -> dst_ip_entropy_1h (snd rf) = 0%R)
         /\ (1 <= unique_dst_ips_1h (snd rf) ->
             (dst_ip_entropy_1h (snd rf) <= ln (IZR (unique_dst_ips_1h (snd rf))))%R))
      (compute_batch_features df).
Proof.
  intros df. unfold compute_batch_features.
  induction (groupby_user (sort_values df)) as [|ug groups IH]; simpl; [constructor|].
  apply Forall_app. split; [|exact IH]. clear IH.
  unfold group_features.
  assert (G : forall rows before st, state_consistent st ->
    Forall
      (fun rf =>
         (0 <= dst_ip_entropy_1h (snd rf))%R
         /\ (unique_dst_ips_1h (snd rf) = 0 -> dst_ip_entropy_1h (snd rf) = 0%R)
         /\ (1 <= unique_dst_ips_1h (snd rf) ->
             (dst_ip_entropy_1h (snd rf) <= ln (IZR (unique_dst_ips_1h (snd rf))))%R))
      (group_loop before st rows)).
  { induction rows as [|row rows IHr]; intros before st Hst; simpl; [constructor|].
    pose proof (row_features_state (before ++ [row]) st row) as Hs.
    pose proof (row_features_loop (before ++ [row]) st row) as (Hu & He & _).
    pose proof (loop_step_consistent st row Hst) as Hst'.
    destruct (row_features (before ++ [row]) st row) as [st' fv]. simpl in Hs, Hu, He.
    subst st'. constructor; [|now apply IHr].
    simpl. rewrite He, Hu.
    destruct Hst' as [(_ & Hpos & _) _].
    destruct (counts_entropy_bounds _ Hpos) as [Hlo Hhi].
    split; [exact Hlo|]. split.
    - intros Hz. destruct (one_hour_counts (fst (loop_step st row))); [reflexivity|].
      simpl length in Hz. lia.
    - intros Hone. rewrite <- INR_IZR_INZ. apply Hhi.
      intros Hnil. rewrite Hnil in Hone. simpl in Hone. lia. }
  apply G, initial_state_consistent.
Qed.

End FrameProperties.

Module ClosedWindows.

Import Features WindowSpec WindowSpec24 CounterFacts WindowFacts FeaturesFacts.
Import EntropyFacts LoopFacts FrameFacts Scoring PipelineSpec Samples SlidingWindowFacts.

Lemma loop_step_twentyfour : forall st row,
  twentyfour_window (fst (loop_step st row)) =
  fst (update_window (twentyfour_window st) (twentyfour_counts st) (timestamp row) (hours 24))
  ++ observations file_name [row].
Proof.
  intros st row. unfold loop_step.
  destruct (observe (one_hour_window st) (one_hour_counts st)
              (timestamp row) (hours 1) (dst_ip row)) as [w1 c1].
  unfold observe, observations. cbn [flat_map]. rewrite app_nil_r.
  destruct (update_window (twentyfour_window st) (twentyfour_counts st)
              (timestamp row) (hours 24)) as [w c].
  destruct (nonempty_str (file_name row)); simpl; [reflexivity|].
  now rewrite app_nil_r.
Qed.

Lemma sorted_app_l : forall (l1 l2 : list Z),
  StronglySorted Z.le (l1 ++ l2) -> StronglySorted Z.le l1.
Proof.
  induction l1 as [|x l1 IH]; intros l2 Hs; simpl in *; [constructor|].
  apply StronglySorted_inv in Hs as [Hs Hle]. constructor; [now apply (IH l2)|].
  apply Forall_app in Hle. tauto.
Qed.

Lemma sorted_snoc_last : forall (l : list Z) x y,
  StronglySorted Z.le ((l ++ [x]) ++ [y]) -> x <= y.
Proof.
  induction l as [|a l IH]; intros x y Hs; simpl in Hs.
  - apply StronglySorted_inv in Hs as [_ Hle]. now inversion Hle.
  - apply StronglySorted_inv in Hs as [Hs _]. now apply IH.
Qed.

(** After a chronological run of rows the 24-hour deque holds the file
    observations of the run whose age, at the last row, is at most 24
    hours. *)
Lemma run_loop_twentyfour_window : forall pre row,
  timestamps_sorted (pre ++ [row]) ->
  twentyfour_window (run_loop initial_state (pre ++ [row])) =
  filter (kept (hours 24) (timestamp row)) (observations file_name (pre ++ [row])).
Proof.
  assert (Hself : forall row,
    filter (kept (hours 24) (timestamp row)) (observations file_name [row])
    = observations file_name [row]).
  { intros row. apply filter_all. intros p Hp.
    apply observations_times in Hp. simpl in Hp. destruct Hp as [Hp|[]].
    unfold kept. rewrite <- Hp, Z.sub_diag. reflexivity. }
  induction pre as [|row' pre' IH] using rev_ind; intros row Hs.
  - simpl. rewrite loop_step_twentyfour. simpl. now rewrite Hself.
  - rewrite run_loop_snoc, loop_step_twentyfour.
    unfold timestamps_sorted in Hs. rewrite !map_app in Hs. simpl in Hs.
    assert (Hs' : timestamps_sorted (pre' ++ [row'])).
    { unfold timestamps_sorted. rewrite map_app. simpl.
      eapply sorted_app_l. exact Hs. }
    assert (Hle : timestamp row' <= timestamp row)
      by (eapply sorted_snoc_last; exact Hs).
    rewrite (IH row' Hs').
    rewrite update_window_filter
      by (apply filter_sorted, observations_sorted; assumption).
    rewrite (observations_app file_name (pre' ++ [row']) [row]), filter_app, Hself.
    f_equal. now apply filter_kept_mono.
Qed.

Lemma sorted_firstn : forall rows n,
  timestamps_sorted rows -> timestamps_sorted (firstn n rows).
Proof.
  intros rows n Hs. unfold timestamps_sorted in *.
  rewrite <- (firstn_skipn n rows), map_app in Hs.
  eapply sorted_app_l. exact Hs.
Qed.

(** On the chronological rows of one user, [unique_files_24h] of a row is
    the number of distinct non-empty file names among the rows up to it
    stamped in the closed window [[ts - 24h, ts]]. *)
Theorem unique_files_closed_window :
  forall (rows : list Event) (i : nat) (row : Event),
    timestamps_sorted rows ->
    nth_error rows i = Some row ->
    exists fv,
      nth_error (group_features rows) i = Some (row, fv)
      /\ unique_files_24h fv = unique_files_closed (firstn (S i) rows) (timestamp row).
Proof.
  intros rows i row Hs Hnth. eexists. split; [now apply group_loop_nth|].
  pose proof (row_features_loop (firstn i rows ++ [row])
                (run_loop initial_state (firstn i rows)) row) as (_ & _ & Hu).
  simpl in Hu. rewrite Hu. rewrite <- run_loop_snoc.
  pose proof (firstn_S_nth _ rows i row Hnth) as Hpre.
  assert (Hsp : timestamps_sorted (firstn i rows ++ [row]))
    by (rewrite <- Hpre; now apply sorted_firstn).
  pose proof (run_loop_consistent (firstn i rows ++ [row]) initial_state
                initial_state_consistent) as [_ Hc].
  rewrite (consistent_length _ _ Hc).
  rewrite (run_loop_twentyfour_window _ _ Hsp).
  unfold unique_files_closed. now rewrite Hpre.
Qed.

(** On the chronological rows of one user, [dst_ip_entropy_1h] of a row is
    the Shannon entropy (natural logarithm) of the non-empty destination
    addresses of the rows up to it stamped in the closed window
    [[ts - 1h, ts]], the row's own address included; it is 0 when that window
    holds at most one distinct address. *)
Theorem dst_ip_entropy_closed_window :
  forall (rows : list Event) (i : nat) (row : Event),
    timestamps_sorted rows ->
    nth_error rows i = Some row ->
    exists fv,
      nth_error (group_features rows) i = Some (row, fv)
      /\ dst_ip_entropy_1h fv
         = EntropyWindowSpec.dst_ip_entropy_closed (firstn (S i) rows) (timestamp row)
      /\ (unique_dst_ips_closed (firstn (S i) rows) (timestamp row) <= 1 ->
          dst_ip_entropy_1h fv = 0%R).
Proof.
  intros rows i row Hs Hnth. eexists. split; [now apply group_loop_nth|].
  pose proof (row_features_loop (firstn i rows ++ [row])
                (run_loop initial_state (firstn i rows)) row) as (_ & He & _).
  simpl in He. rewrite He. rewrite <- run_loop_snoc.
  pose proof (firstn_S_nth _ rows i row Hnth) as Hpre.
  assert (Hsp : timestamps_sorted (firstn i rows ++ [row]))
    by (rewrite <- Hpre; now apply sorted_firstn).
  pose proof (run_loop_consistent (firstn i rows ++ [row]) initial_state
                initial_state_consistent) as [Hc _].
  rewrite (EntropyFacts.counts_entropy_shannon _ _ Hc).
  rewrite (run_loop_one_hour_window _ _ Hsp).
  unfold EntropyWindowSpec.dst_ip_entropy_closed, unique_dst_ips_closed, distinct_count.
  rewrite Hpre. split; [reflexivity|].
  intros Hle. apply EntropyFacts.shannon_entropy_degenerate. lia.
Qed.

End ClosedWindows.

Module ClosedWindowsWitness.

Import Features WindowSpec WindowSpec24 Scoring Samples MoreSamples.
Import SlidingWindowFacts ClosedWindows.

Lemma unique_dst_ips_closed_window_witness :
  exists fv,
    nth_error (group_features (map event_row boundary_logins)) 1
      = Some (event_row (login_at (hours 1) "198.51.100.9"), fv)
    /\ unique_dst_ips_1h fv
       = unique_dst_ips_closed (firstn 2 (map event_row boundary_logins)) (hours 1).
Proof.
  apply (unique_dst_ips_closed_window (map event_row boundary_logins) 1
           (event_row (login_at (hours 1) "198.51.100.9"))).
  - unfold timestamps_sorted. simpl. repeat constructor; vm_compute; discriminate.
  - reflexivity.
Defined.

Lemma unique_files_closed_window_witness :
  exists fv,
    nth_error (group_features file_rows) 2
      = Some (file_access_at (hours 24 + 1) "CONFIDENTIAL_project_2.pdf", fv)
    /\ unique_files_24h fv
       = unique_files_closed (firstn 3 file_rows) (hours 24 + 1).
Proof.
  apply (unique_files_closed_window file_rows 2
           (file_access_at (hours 24 + 1) "CONFIDENTIAL_project_2.pdf")).
  - unfold timestamps_sorted. simpl. repeat constructor; vm_compute; discriminate.
  - reflexivity.
Defined.

Lemma dst_ip_entropy_closed_window_witness :
  exists fv,
    nth_error (group_features (map event_row boundary_logins)) 1
      = Some (event_row (login_at (hours 1) "198.51.100.9"), fv)
    /\ dst_ip_entropy_1h fv
       = EntropyWindowSpec.dst_ip_entropy_closed
           (firstn 2 (map event_row boundary_logins)) (hours 1)
    /\ (unique_dst_ips_closed (firstn 2 (map event_row boundary_logins)) (hours 1) <= 1 ->
        dst_ip_entropy_1h fv = 0%R).
Proof.
  apply (dst_ip_entropy_closed_window (map event_row boundary_logins) 1
           (event_row (login_at (hours 1) "198.51.100.9"))).
  - unfold timestamps_sorted. simpl. repeat constructor; vm_compute; discriminate.
  - reflexivity.
Defined.

End ClosedWindowsWitness.

(** ** Further properties of scoring *)

Module ScoringProperties.

Import Features Scoring PipelineSpec ScoringSpec Samples MoreSamples FrameFacts ScoringFacts.
Import Correlator.

Ltac level_cases th s :=
  unfold get_threat_level;
  destruct (score_ge s (THRESHOLD_CRITICAL th)) eqn:?;
  [|destruct (score_ge s (THRESHOLD_HIGH th)) eqn:?;
    [|destruct (score_ge s (THRESHOLD_MEDIUM th)) eqn:?]].

Ltac to_Q :=
  repeat match goal with
         | H : score_ge _ _ = true |- _ => apply score_ge_iff in H
         | H : score_ge _ _ = false |- _ => apply score_ge_false_iff in H
         end.

(** Whatever the thresholds, the level never goes down when the score goes
    up (in the order low < medium < high < critical of
    [THREAT_SEVERITY_ORDER]), and it is always one of the four ranked
    levels. *)
Theorem get_threat_level_monotone :
  forall (th : Thresholds) (s1 s2 : Q),
    (s1 <= s2)%Q ->
    severity_rank (get_threat_level th s1) <= severity_rank (get_threat_level th s2)
    /\ 1 <= severity_rank (get_threat_level th s1) <= 4.
Proof.
  intros th s1 s2 Hle.
  level_cases th s1; level_cases th s2; to_Q;
    change (severity_rank "critical") with 4;
    change (severity_rank "high") with 3;
    change (severity_rank "medium") with 2;
    change (severity_rank "low") with 1;
    try lia; exfalso; lra.
Qed.

Lemma get_threat_level_monotone_witness :
  severity_rank (get_threat_level default_thresholds 0.6)
    <= severity_rank (get_threat_level default_thresholds 0.9)
  /\ 1 <= severity_rank (get_threat_level default_thresholds 0.6) <= 4.
Proof.
  apply (get_threat_level_monotone default_thresholds 0.6 0.9).
  vm_compute. discriminate.
Defined.

Lemma fresh_id_above : forall used x, In x used -> x < Database.fresh_id used.
Proof.
  unfold Database.fresh_id. induction used as [|y used IH]; intros x Hin; [contradiction|].
  cbn [fold_right]. destruct Hin as [->|Hin]; [lia|]. specialize (IH x Hin). lia.
Qed.

Lemma fresh_id_not_used : forall used, ~ In (Database.fresh_id used) used.
Proof.
  intros used Hin. apply fresh_id_above in Hin. lia.
Qed.

(** With the artifacts loaded, [predict_threat] answers, and it records an
    alert exactly when the score reaches [THRESHOLD_MEDIUM]: below it the
    session is left as it was; from it on, one alert is appended, carrying
    the score, level and MITRE pair of the response, the event's user and
    timestamp, a primary key no stored alert has, and no incident. *)
Theorem predict_threat_records_alert :
  forall (Scaled : Type) (rf xgb : Scaled -> Q) (scale : FeatureVector -> Scaled)
         (th : Thresholds) (event : EventInput) (db : Database.Db),
    exists db' resp,
      predict_threat th (mkModels (Some rf) (Some xgb) (Some scale)) event db
        = Ok (db', resp)
      /\ (resp_is_malicious resp = true
          <-> (THRESHOLD_MEDIUM th <= resp_threat_score resp)%Q)
      /\ (resp_is_malicious resp = false -> db' = db)
      /\ (resp_is_malicious resp = true ->
          exists alert,
            Database.alerts db' = Database.alerts db ++ [alert]
            /\ Database.incidents db' = Database.incidents db
            /\ Database.threat_score alert = resp_threat_score resp
            /\ Database.threat_level alert = resp_threat_level resp
            /\ Database.mitre_tactic alert = resp_mitre_tactic resp
            /\ Database.mitre_technique alert = resp_mitre_technique resp
            /\ Database.user_id alert = ei_user_id event
            /\ Database.timestamp alert = Some (ei_timestamp event)
            /\ Database.incident_id alert = None
            /\ ~ In (Database.id alert) (map Database.id (Database.alerts db))).
Proof.
  intros Scaled rf xgb scale th event db.
  unfold predict_threat. cbn [rf_model xgb_model scaler].
  rewrite (predict_features_lone event). cbn [map combine fst snd].
  set (score := ((rf (scale (lone_features (event_row event)))
                  + xgb (scale (lone_features (event_row event)))) / 2)%Q).
  do 2 eexists. split; [reflexivity|].
  cbn [resp_is_malicious resp_threat_score resp_threat_level
       resp_mitre_tactic resp_mitre_technique].
  split; [apply score_ge_iff|].
  destruct (score_ge score (THRESHOLD_MEDIUM th)); split; intros H; try discriminate.
  - eexists. split; [reflexivity|]. unfold new_alert.
    cbn [Database.incidents Database.threat_score Database.threat_level
         Database.mitre_tactic Database.mitre_technique Database.user_id
         Database.timestamp Database.incident_id Database.id].
    repeat split. apply fresh_id_not_used.
  - reflexivity.
Qed.

(** When [THRESHOLD_MEDIUM] is the lowest of the three thresholds, the
    verdict agrees with the level: an event is malicious exactly when its
    level is not "low". *)
Theorem is_malicious_iff_not_low :
  forall (Scaled : Type) (rf xgb : Scaled -> Q) (scale : FeatureVector -> Scaled)
         (th : Thresholds) (event : EventInput) (db : Database.Db),
    (THRESHOLD_MEDIUM th <= THRESHOLD_HIGH th)%Q ->
    (THRESHOLD_MEDIUM th <= THRESHOLD_CRITICAL th)%Q ->
    exists db' resp,
      predict_threat th (mkModels (Some rf) (Some xgb) (Some scale)) event db
        = Ok (db', resp)
      /\ (resp_is_malicious resp = true <-> resp_threat_level resp <> "low").
Proof.
  intros Scaled rf xgb scale th event db Hmh Hmc.
  unfold predict_threat. cbn [rf_model xgb_model scaler].
  rewrite (predict_features_lone event). cbn [map combine fst snd].
  set (score := ((rf (scale (lone_features (event_row event)))
                  + xgb (scale (lone_features (event_row event)))) / 2)%Q).
  do 2 eexists. split; [reflexivity|].
  cbn [resp_is_malicious resp_threat_level].
  level_cases th score; to_Q.
  - split; [intros _; discriminate|intros _; apply score_ge_iff; lra].
  - split; [intros _; discriminate|intros _; apply score_ge_iff; lra].
  - split; [intros _; discriminate|reflexivity].
  - split; [discriminate|congruence].
Qed.

Lemma is_malicious_iff_not_low_witness :
  exists db' resp,
    predict_threat default_thresholds sample_models transfer_event empty_db
      = Ok (db', resp)
    /\ (resp_is_malicious resp = true <-> resp_threat_level resp <> "low").
Proof.
  apply (is_malicious_iff_not_low unit (fun _ => 0.9%Q) (fun _ => 0.7%Q) (fun _ => tt)
           default_thresholds transfer_event empty_db);
    vm_compute; discriminate.
Defined.

Lemma dict_get_in : forall (V : Type) (d : list (string * V)) key default,
  In key (map fst d) -> In (dict_get d key default) (map snd d).
Proof.
  induction d as [|[k v] d IH]; intros key default Hin; simpl in *; [contradiction|].
  destruct (String.eqb_spec key k) as [->|Hne]; [now left|].
  right. apply IH. destruct Hin as [Heq|Hin]; [congruence|assumption].
Qed.

(** [map_to_mitre] never fails: it returns the sentinel pair
    ("TA0000", "T0000") exactly when the threat type has no table or the
    event type is not in the table of the threat type. *)
Theorem map_to_mitre_sentinel_iff :
  forall threat_type event_type : string,
    map_to_mitre threat_type event_type = sentinel_pair
    <-> ~ In event_type (map fst (dict_get mitre_mapping threat_type [])).
Proof.
  intros threat_type event_type. unfold map_to_mitre. split.
  - intros Heq Hin.
    apply (dict_get_in _ _ _ ("TA0000", "T0000")) in Hin. rewrite Heq in Hin.
    revert Hin. unfold mitre_mapping. cbn [dict_get].
    destruct (String.eqb threat_type "apt"); [|destruct (String.eqb threat_type "insider")];
      cbn; intros H; repeat (destruct H as [H|H]; [discriminate|]); exact H.
  - intros Hno. now apply dict_get_absent.
Qed.

(** The tactic [map_to_mitre] returns is an identifier ("TA0001", ...), never
    a tactic name, so [map_attack_stage] classifies every one of them as
    "Other": the attack chain built from alerts recorded by [predict_threat]
    has no other stage. *)
Theorem predicted_tactic_stage_is_other :
  forall (Scaled : Type) (rf xgb : Scaled -> Q) (scale : FeatureVector -> Scaled)
         (th : Thresholds) (event : EventInput) (db : Database.Db),
    (forall threat_type event_type,
        map_attack_stage (Some (fst (map_to_mitre threat_type event_type))) = "Other")
    /\ exists db' resp,
         predict_threat th (mkModels (Some rf) (Some xgb) (Some scale)) event db
           = Ok (db', resp)
         /\ map_attack_stage (resp_mitre_tactic resp) = "Other"
         /\ forall a, In a (Database.alerts db') ->
                      In a (Database.alerts db)
                      \/ map_attack_stage (Database.mitre_tactic a) = "Other".
Proof.
  intros Scaled rf xgb scale th event db.
  assert (Hother : forall threat_type event_type,
    map_attack_stage (Some (fst (map_to_mitre threat_type event_type))) = "Other").
  { intros tt et. unfold map_to_mitre, mitre_mapping. cbn [dict_get].
    destruct (String.eqb tt "apt"); [|destruct (String.eqb tt "insider")];
      cbn [dict_get];
      repeat match goal with
             | |- context [String.eqb et ?k] => destruct (String.eqb et k)
             end;
      vm_compute; reflexivity. }
  split; [exact Hother|].
  unfold predict_threat. cbn [rf_model xgb_model scaler].
  rewrite (predict_features_lone event). cbn [map combine fst snd].
  do 2 eexists. split; [reflexivity|].
  cbn [resp_mitre_tactic]. split; [apply Hother|].
  intros a Ha. destruct (score_ge _ _); [|now left].
  cbn [Database.alerts] in Ha. apply in_app_or in Ha as [Ha|[<-|[]]]; [now left|].
  right. unfold new_alert. cbn [Database.mitre_tactic]. apply Hother.
Qed.

End ScoringProperties.

(** ** Further properties of correlation *)

Module CorrelatorProperties.

Import Database Correlator CorrelatorSpec IncidentNumberSpec CorrelatorSamples FormatSamples ScoringSpec.
Import CorrelatorFacts.

Lemma insert_alert_sorted : forall key a l,
  StronglySorted (fun x y => key x <= key y) l ->
  StronglySorted (fun x y => key x <= key y) (insert_alert key a l).
Proof.
  induction l as [|x xs IH]; intros Hs; simpl.
  - repeat constructor.
  - apply StronglySorted_inv in Hs as [Hs Hle].
    destruct (Z.leb_spec (key a) (key x)) as [Hax|Hxa].
    + constructor; [now constructor|].
      constructor; [assumption|].
      eapply Forall_impl; [|exact Hle]. simpl. intros; lia.
    + constructor; [now apply IH|].
      apply (Permutation_Forall (Permutation_sym (insert_alert_perm key a xs))).
      constructor; [lia|assumption].
Qed.

(** [sorted(alerts, key=...)]: ascending in the key. *)
Lemma sort_alerts_sorted : forall key l,
  StronglySorted (fun x y => key x <= key y) (sort_alerts key l).
Proof.
  induction l as [|a l IH]; simpl; [constructor|]. now apply insert_alert_sorted.
Qed.

Lemma sorted_last_max : forall (key : Alert -> Z) l d x,
  StronglySorted (fun x y => key x <= key y) l ->
  In x l -> key x <= key (last l d).
Proof.
  induction l as [|a l IH]; intros d x Hs Hin; [contradiction|].
  apply StronglySorted_inv in Hs as [Hs Hle].
  destruct l as [|b l'].
  - destruct Hin as [->|[]]. simpl. lia.
  - change (last (a :: b :: l') d) with (last (b :: l') d).
    destruct Hin as [->|Hin]; [|now apply IH].
    rewrite Forall_forall in Hle.
    assert (Hb : key x <= key b) by (apply Hle; now left).
    specialize (IH d b Hs (or_introl eq_refl)). lia.
Qed.

Lemma last_in : forall (A : Type) (l : list A) d, l <> [] -> In (last l d) l.
Proof.
  induction l as [|a l IH]; intros d Hne; [congruence|].
  destruct l as [|b l']; [now left|].
  right. apply IH. discriminate.
Qed.

Section WithFormatting.

Variable strftime : string -> Timestamp -> string.
Variable isoformat : Timestamp -> string.
Variable format_2f : Q -> string.
Variable str_of_len : nat -> string.

(** The incident [create_incident] builds from a non-empty list whose
    incident number is free, in terms of the sorted alerts. *)
Lemma create_incident_sorted : forall db now a rest,
  number_free strftime db now (a :: rest) = true ->
  exists first others db' inc,
    sort_alerts (ts_or_now now) (a :: rest) = first :: others
    /\ create_incident strftime isoformat format_2f str_of_len db now (a :: rest)
       = Ok (db', inc)
    /\ incident_user_id inc = user_id first
    /\ start_time inc = ts_or_now now first
    /\ end_time inc = timestamp (last (first :: others) first)
    /\ severity inc = max_severity_of (first :: others)
    /\ attack_chain inc = map (chain_entry isoformat now) (first :: others)
    /\ narrative inc = generate_narrative strftime format_2f str_of_len (first :: others)
    /\ incident_number inc
       = String.concat "" [ "INC-"; strftime "%Y%m%d%H%M%S" (ts_or_now now first);
                            "-"; user_id first ]
    /\ incident_pk inc = fresh_id (map incident_pk (incidents db))
    /\ alerts db' = link_alerts (alerts db) (first :: others) (incident_pk inc)
    /\ incidents db' = incidents db ++ [inc].
Proof.
  intros db now a rest Hfree. unfold create_incident. unfold number_free in Hfree.
  pose proof (sort_alerts_perm (ts_or_now now) (a :: rest)) as Hperm.
  destruct (sort_alerts (ts_or_now now) (a :: rest)) as [|first others] eqn:Es.
  - apply Permutation_nil in Hperm. discriminate.
  - apply negb_true_iff in Hfree. unfold incident_number_at, ts_or_now in Hfree.
    rewrite Hfree.
    exists first, others. do 2 eexists. split; [reflexivity|]. split; [reflexivity|].
    cbn [incident_user_id start_time end_time severity attack_chain narrative
         incident_number incident_pk alerts incidents].
    unfold ts_or_now. repeat split.
Qed.

(** The incident spans its alerts: [start_time] is the smallest and
    [end_time] the largest timestamp among them (an alert without timestamp
    counting as stamped now), each attained by one of the alerts, and the
    incident's user is the user of an earliest alert.  This holds on every
    session but one that already stores the incident's number, where the
    flush raises the integrity error instead. *)
Theorem create_incident_time_span :
  forall db now a rest,
    if number_free strftime db now (a :: rest)
    then
      exists db' inc,
        create_incident strftime isoformat format_2f str_of_len db now (a :: rest)
          = Ok (db', inc)
        /\ (forall x, In x (a :: rest) -> start_time inc <= ts_or_now now x)
        /\ (exists x, In x (a :: rest)
                      /\ start_time inc = ts_or_now now x
                      /\ incident_user_id inc = user_id x)
        /\ (forall e, end_time inc = Some e ->
                      forall x, In x (a :: rest) -> ts_or_now now x <= e)
        /\ (exists x, In x (a :: rest) /\ end_time inc = timestamp x)
    else
      create_incident strftime isoformat format_2f str_of_len db now (a :: rest)
        = Raise (IntegrityError "incidents.incident_number").
Proof.
  intros db now a rest.
  destruct (number_free strftime db now (a :: rest)) eqn:Hfree;
    [|now apply create_incident_conflict].
  destruct (create_incident_sorted db now a rest Hfree)
    as (first & others & db' & inc & Es & Hc & Hu & Hst & He & _).
  pose proof (sort_alerts_perm (ts_or_now now) (a :: rest)) as Hperm.
  pose proof (sort_alerts_sorted (ts_or_now now) (a :: rest)) as Hsorted.
  rewrite Es in Hperm, Hsorted.
  exists db', inc. split; [exact Hc|].
  assert (Hin : forall x, In x (a :: rest) -> In x (first :: others))
    by (intros x Hx; eapply Permutation_in; [apply Permutation_sym; eassumption|assumption]).
  assert (Hback : forall x, In x (first :: others) -> In x (a :: rest))
    by (intros x Hx; eapply Permutation_in; eassumption).
  split; [|split; [|split]].
  - intros x Hx. rewrite Hst. apply Hin in Hx.
    apply StronglySorted_inv in Hsorted as [_ Hle]. rewrite Forall_forall in Hle.
    destruct Hx as [->|Hx]; [lia|now apply Hle].
  - exists first. repeat split; auto. apply Hback. now left.
  - intros e Hend x Hx. rewrite He in Hend.
    pose proof (sorted_last_max (ts_or_now now) (first :: others) first x Hsorted (Hin x Hx)) as Hmax.
    unfold ts_or_now at 2 in Hmax. rewrite Hend in Hmax. exact Hmax.
  - exists (last (first :: others) first). split; [|exact He].
    apply Hback, last_in. discriminate.
Qed.

Lemma severity_rank_nonneg : forall level, 0 <= severity_rank level.
Proof.
  intros level. unfold severity_rank, THREAT_SEVERITY_ORDER. cbn [Scoring.dict_get].
  repeat match goal with
         | |- context [String.eqb level ?k] => destruct (String.eqb level k)
         end; lia.
Qed.

Lemma max_severity_fold : forall l acc,
  let step := fun max_severity a =>
    if negb (String.eqb (threat_level a) "")
       && (severity_rank (threat_level a) >? severity_rank max_severity)
    then threat_level a else max_severity in
  severity_rank acc <= severity_rank (fold_left step l acc)
  /\ (forall x, In x l ->
        severity_rank (threat_level x) <= severity_rank (fold_left step l acc))
  /\ (fold_left step l acc = acc
      \/ exists x, In x l /\ fold_left step l acc = threat_level x).
Proof.
  intros l acc step. revert acc.
  induction l as [|a l IH]; intros acc; simpl.
  - split; [lia|]. split; [intros x []|now left].
  - destruct (IH (step acc a)) as (Hacc & Hall & Hwho).
    assert (Hstep : severity_rank acc <= severity_rank (step acc a)
                    /\ severity_rank (threat_level a) <= severity_rank (step acc a)
                    /\ (step acc a = acc \/ step acc a = threat_level a)).
    { unfold step. destruct (String.eqb_spec (threat_level a) "") as [Heq|Hne]; simpl.
      - rewrite Heq. split; [lia|]. split; [|now left].
        change (severity_rank "") with 0. apply severity_rank_nonneg.
      - destruct (Z.gtb_spec (severity_rank (threat_level a)) (severity_rank acc));
          repeat split; auto; lia. }
    destruct Hstep as (H1 & H2 & H3).
    split; [lia|]. split.
    + intros x [->|Hx]; [lia|now apply Hall].
    + destruct Hwho as [Heq|(x & Hx & Heq)].
      * destruct H3 as [H3|H3]; [left; congruence|].
        right. exists a. split; [now left|congruence].
      * right. exists x. split; [now right|assumption].
Qed.

(** The severity of the incident ranks at least as high as the level of each
    of its alerts, in the order of [THREAT_SEVERITY_ORDER]; it is "low" or
    the level of one of the alerts, so its rank is that of the highest-ranked
    alert, and never below "low".  This holds on every session but one that
    already stores the incident's number, where the flush raises the
    integrity error instead. *)
Theorem create_incident_severity_is_max :
  forall db now a rest,
    if number_free strftime db now (a :: rest)
    then
      exists db' inc,
        create_incident strftime isoformat format_2f str_of_len db now (a :: rest)
          = Ok (db', inc)
        /\ (forall x, In x (a :: rest) ->
              severity_rank (threat_level x) <= severity_rank (severity inc))
        /\ (severity inc = "low"
            \/ exists x, In x (a :: rest) /\ severity inc = threat_level x)
        /\ 1 <= severity_rank (severity inc)
    else
      create_incident strftime isoformat format_2f str_of_len db now (a :: rest)
        = Raise (IntegrityError "incidents.incident_number").
Proof.
  intros db now a rest.
  destruct (number_free strftime db now (a :: rest)) eqn:Hfree;
    [|now apply create_incident_conflict].
  destruct (create_incident_sorted db now a rest Hfree)
    as (first & others & db' & inc & Es & Hc & _ & _ & _ & Hsev & _).
  pose proof (sort_alerts_perm (ts_or_now now) (a :: rest)) as Hperm.
  rewrite Es in Hperm.
  exists db', inc. split; [exact Hc|]. rewrite Hsev. unfold max_severity_of.
  destruct (max_severity_fold (first :: others) "low") as (Hlow & Hall & Hwho).
  split; [|split].
  - intros x Hx. apply Hall.
    eapply Permutation_in; [apply Permutation_sym; eassumption|assumption].
  - destruct Hwho as [Heq|(x & Hx & Heq)]; [now left|].
    right. exists x. split; [|assumption]. eapply Permutation_in; eassumption.
  - exact Hlow.
Qed.

(** The attack chain has one entry per alert, in chronological order: it is
    the image of the alerts sorted by timestamp, each entry carrying the
    tactic and technique of its alert and the stage [map_attack_stage] gives
    the tactic.  This holds on every session but one that already stores
    the incident's number, where the flush raises the integrity error
    instead. *)
Theorem create_incident_chain_chronological :
  forall db now a rest,
    if number_free strftime db now (a :: rest)
    then
      exists db' inc sorted,
        create_incident strftime isoformat format_2f str_of_len db now (a :: rest)
          = Ok (db', inc)
        /\ Permutation sorted (a :: rest)
        /\ StronglySorted (fun x y => ts_or_now now x <= ts_or_now now y) sorted
        /\ map tactic (attack_chain inc) = map mitre_tactic sorted
        /\ map technique (attack_chain inc) = map mitre_technique sorted
        /\ map stage (attack_chain inc)
           = map (fun x => map_attack_stage (mitre_tactic x)) sorted
        /\ map entry_timestamp (attack_chain inc)
           = map (fun x => isoformat (ts_or_now now x)) sorted
    else
      create_incident strftime isoformat format_2f str_of_len db now (a :: rest)
        = Raise (IntegrityError "incidents.incident_number").
Proof.
  intros db now a rest.
  destruct (number_free strftime db now (a :: rest)) eqn:Hfree;
    [|now apply create_incident_conflict].
  destruct (create_incident_sorted db now a rest Hfree)
    as (first & others & db' & inc & Es & Hc & _ & _ & _ & _ & Hchain & _).
  exists db', inc, (first :: others). split; [exact Hc|].
  rewrite <- Es. split; [apply sort_alerts_perm|]. split; [apply sort_alerts_sorted|].
  rewrite Es, Hchain, !map_map. repeat split.
Qed.

End WithFormatting.

End CorrelatorProperties.

Module LinkingProperties.

Import Database Correlator CorrelatorSpec IncidentNumberSpec CorrelatorSamples FormatSamples ScoringSpec.
Import CorrelatorFacts CorrelatorProperties.

Lemma nodup_map_inj : forall (A : Type) (f : A -> Z) l a b,
  NoDup (map f l) -> In a l -> In b l -> f a = f b -> a = b.
Proof.
  induction l as [|x l IH]; intros a b Hnd Ha Hb Hf; [contradiction|].
  simpl in Hnd. inversion Hnd as [|? ? Hnotin Hnd']; subst.
  destruct Ha as [->|Ha]; destruct Hb as [->|Hb]; auto.
  - exfalso. apply Hnotin. rewrite Hf. now apply in_map.
  - exfalso. apply Hnotin. rewrite <- Hf. now apply in_map.
Qed.

Lemma query_alerts_complete : forall db user ws we a,
  In a (alerts db) -> in_query user ws we a = true ->
  In a (query_alerts db user ws we).
Proof.
  intros db user ws we a Hin Hq. unfold query_alerts.
  apply (Permutation_in _ (Permutation_sym (sort_alerts_perm _ _))).
  now apply filter_In.
Qed.

Section WithFormatting.

Variable strftime : string -> Timestamp -> string.
Variable isoformat : Timestamp -> string.
Variable format_2f : Q -> string.
Variable str_of_len : nat -> string.

(** With distinct primary keys, a correlation that selects something either
    stores one incident or fails at the flush.  It fails, with the integrity
    error, exactly when the number of the new incident (the earliest selected
    timestamp and the user) is stored already, as after an earlier
    correlation of the same alerts.  Otherwise it links exactly the selected
    rows (the user's alerts with [window_start <= timestamp <= window_end])
    to the new incident and leaves every other alert row as it was; the
    incident is appended with a primary key and a number no stored incident
    has, and it carries the queried user. *)
Theorem correlate_alerts_links_only_selected :
  forall db now user w,
    NoDup (map id (alerts db)) ->
    query_alerts db user (now - minutes w) now <> [] ->
    if number_free strftime db now (query_alerts db user (now - minutes w) now)
    then
      exists db' inc,
        correlate_alerts strftime isoformat format_2f str_of_len db now user w
          = Ok (db', Some inc)
        /\ alerts db'
           = map (fun a => if in_query user (now - minutes w) now a
                           then set_incident_id a (incident_pk inc) else a)
                 (alerts db)
        /\ incidents db' = incidents db ++ [inc]
        /\ ~ In (incident_pk inc) (map incident_pk (incidents db))
        /\ ~ In (incident_number inc) (map incident_number (incidents db))
        /\ incident_user_id inc = user
    else
      correlate_alerts strftime isoformat format_2f str_of_len db now user w
        = Raise (IntegrityError "incidents.incident_number").
Proof.
  intros db now user w Hnd Hne.
  destruct (number_free strftime db now (query_alerts db user (now - minutes w) now))
    eqn:Hfree;
    [|now apply (correlate_alerts_selected strftime isoformat format_2f str_of_len
                   db now user w)].
  unfold correlate_alerts.
  destruct (query_alerts db user (now - minutes w) now) as [|a rest] eqn:Eq;
    [congruence|].
  destruct (create_incident_sorted strftime isoformat format_2f str_of_len db now a rest Hfree)
    as (first & others & db' & inc & Es & Hc & Hu & _ & _ & _ & _ & _ & Hnum & Hpk & Hal & Hin).
  rewrite Hc. exists db', inc. split; [reflexivity|].
  pose proof (sort_alerts_perm (ts_or_now now) (a :: rest)) as Hperm.
  rewrite Es in Hperm.
  assert (Hsel : forall x, In x (first :: others) <->
                           In x (alerts db) /\ in_query user (now - minutes w) now x = true).
  { intros x. split.
    - intros Hx. apply (query_alerts_incl db user (now - minutes w) now).
      rewrite Eq. eapply Permutation_in; eassumption.
    - intros [Hx Hq]. eapply Permutation_in; [apply Permutation_sym; eassumption|].
      rewrite <- Eq. now apply query_alerts_complete. }
  split; [|split; [exact Hin|split; [|split]]].
  - rewrite Hal. unfold link_alerts. apply map_ext_in. intros row Hrow.
    destruct (in_query user (now - minutes w) now row) eqn:Hq.
    + replace (existsb (fun a0 => id a0 =? id row) (first :: others)) with true;
        [reflexivity|].
      symmetry. apply existsb_exists. exists row. split; [|apply Z.eqb_refl].
      apply Hsel. now split.
    + replace (existsb (fun a0 => id a0 =? id row) (first :: others)) with false;
        [reflexivity|].
      symmetry. apply Bool.not_true_iff_false. intros Hex.
      apply existsb_exists in Hex as (a0 & Ha0 & Hid).
      apply Z.eqb_eq in Hid. apply Hsel in Ha0 as [Ha0 Hq0].
      assert (a0 = row) by (eapply nodup_map_inj; eauto). subst a0. congruence.
  - rewrite Hpk. apply ScoringProperties.fresh_id_not_used.
  - rewrite Hnum. unfold number_free in Hfree. rewrite Es in Hfree.
    apply negb_true_iff in Hfree. unfold incident_number_at in Hfree.
    intros Hstored. apply in_map_iff in Hstored as (i & Hi & Hini).
    apply Bool.not_true_iff_false in Hfree. apply Hfree.
    unfold number_taken. apply existsb_exists. exists i. split; [assumption|].
    now apply String.eqb_eq.
  - rewrite Hu. assert (Hf : In first (first :: others)) by now left.
    apply Hsel in Hf as [_ Hq]. unfold in_query in Hq.
    apply andb_true_iff in Hq as [Hq _]. now apply String.eqb_eq.
Qed.

End WithFormatting.

Lemma correlate_alerts_links_only_selected_witness :
  exists db' inc,
    correlate_alerts plain_strftime plain_isoformat plain_format_2f plain_str_of_len
      two_user_db boundary_now "user042" 60
      = Ok (db', Some inc)
    /\ alerts db'
       = map (fun a => if in_query "user042" (boundary_now - minutes 60) boundary_now a
                       then set_incident_id a (incident_pk inc) else a)
             (alerts two_user_db)
    /\ incidents db' = incidents two_user_db ++ [inc]
    /\ ~ In (incident_pk inc) (map incident_pk (incidents two_user_db))
    /\ ~ In (incident_number inc) (map incident_number (incidents two_user_db))
    /\ incident_user_id inc = "user042".
Proof.
  apply (correlate_alerts_links_only_selected plain_strftime plain_isoformat
           plain_format_2f plain_str_of_len two_user_db boundary_now "user042" 60).
  - simpl. repeat constructor; simpl; intuition discriminate.
  - vm_compute. discriminate.
Defined.

(** *** Correlating again *)

Lemma insert_alert_map : forall (g : Alert -> Alert) key a l,
  (forall x, key (g x) = key x) ->
  insert_alert key (g a) (map g l) = map g (insert_alert key a l).
Proof.
  intros g key a l Hkey. induction l as [|x xs IH]; [reflexivity|].
  simpl. rewrite !Hkey. destruct (key a <=? key x); [reflexivity|].
  simpl. now rewrite IH.
Qed.

Lemma sort_alerts_map : forall (g : Alert -> Alert) key l,
  (forall x, key (g x) = key x) ->
  sort_alerts key (map g l) = map g (sort_alerts key l).
Proof.
  intros g key l Hkey. induction l as [|a l IH]; [reflexivity|].
  simpl. fold (sort_alerts key (map g l)). fold (sort_alerts key l).
  rewrite IH. now apply insert_alert_map.
Qed.

Lemma insert_alert_ext : forall k1 k2 a l,
  k1 a = k2 a -> (forall x, In x l -> k1 x = k2 x) ->
  insert_alert k1 a l = insert_alert k2 a l.
Proof.
  intros k1 k2 a l Ha. induction l as [|x xs IH]; intros Hl; [reflexivity|].
  simpl. rewrite Ha, (Hl x (or_introl eq_refl)).
  destruct (k2 a <=? k2 x); [reflexivity|].
  f_equal. apply IH. intros y Hy. apply Hl. now right.
Qed.

Lemma sort_alerts_ext : forall k1 k2 l,
  (forall x, In x l -> k1 x = k2 x) -> sort_alerts k1 l = sort_alerts k2 l.
Proof.
  intros k1 k2. induction l as [|a l IH]; intros Hl; [reflexivity|].
  simpl. fold (sort_alerts k1 l). fold (sort_alerts k2 l).
  rewrite <- IH by (intros x Hx; apply Hl; now right).
  apply insert_alert_ext; [apply Hl; now left|].
  intros x Hx. apply Hl. right.
  eapply Permutation_in; [apply sort_alerts_perm|exact Hx].
Qed.

Lemma filter_map_same : forall (g : Alert -> Alert) (p q : Alert -> bool) l,
  (forall x, In x l -> p (g x) = q x) ->
  filter p (map g l) = map g (filter q l).
Proof.
  intros g p q. induction l as [|a l IH]; intros H; [reflexivity|].
  simpl. rewrite (H a (or_introl eq_refl)).
  rewrite IH by (intros x Hx; apply H; now right).
  destruct (q a); reflexivity.
Qed.

Section AgainWithFormatting.

Variable strftime : string -> Timestamp -> string.
Variable isoformat : Timestamp -> string.
Variable format_2f : Q -> string.
Variable str_of_len : nat -> string.

(** A correlation is not repeatable.  Once [correlate_alerts] has stored an
    incident for a user, a later call for that user whose window holds the
    same alerts neither returns that incident nor none: the incident it
    builds carries the stored number, and the flush raises the integrity
    error. *)
Theorem correlate_alerts_again_raises :
  forall db now user w db' inc now' w',
    correlate_alerts strftime isoformat format_2f str_of_len db now user w
      = Ok (db', Some inc) ->
    (forall a, In a (alerts db) ->
       in_query user (now' - minutes w') now' a
       = in_query user (now - minutes w) now a) ->
    correlate_alerts strftime isoformat format_2f str_of_len db' now' user w'
      = Raise (IntegrityError "incidents.incident_number").
Proof.
  intros db now user w db' inc now' w' Hfirst Hsame.
  unfold correlate_alerts in Hfirst.
  destruct (query_alerts db user (now - minutes w) now) as [|a rest] eqn:Eq;
    [discriminate|].
  destruct (number_free strftime db now (a :: rest)) eqn:Hfree;
    [|rewrite (create_incident_conflict strftime isoformat format_2f str_of_len
                 db now a rest Hfree) in Hfirst; discriminate].
  destruct (create_incident_sorted strftime isoformat format_2f str_of_len db now a rest Hfree)
    as (first & others & db1 & inc1 & Es & Hc & _ & _ & _ & _ & _ & _ & Hnum & _ & Hal & Hin).
  rewrite Hc in Hfirst. injection Hfirst as <- <-.
  set (g := fun row => if existsb (fun x => id x =? id row) (first :: others)
                       then set_incident_id row (incident_pk inc1) else row) in *.
  assert (Hg : forall x, timestamp (g x) = timestamp x /\ user_id (g x) = user_id x).
  { intros x. unfold g. destruct (existsb _ _); split; reflexivity. }
  assert (Hq : forall ws we x, in_query user ws we (g x) = in_query user ws we x).
  { intros ws we x. unfold in_query. destruct (Hg x) as [-> ->]. reflexivity. }
  assert (Hkey : forall t x, ts_or_now t (g x) = ts_or_now t x).
  { intros t x. unfold ts_or_now. now destruct (Hg x) as [-> _]. }
  assert (Hsel : query_alerts db1 user (now' - minutes w') now' = map g (a :: rest)).
  { unfold query_alerts. rewrite Hal. unfold link_alerts. fold g.
    rewrite (filter_map_same g _ (in_query user (now - minutes w) now))
      by (intros x Hx; rewrite Hq; now apply Hsame).
    rewrite sort_alerts_map by apply Hkey.
    f_equal. exact Eq. }
  assert (Hstamped : forall x, In x (a :: rest) -> ts_or_now now' x = ts_or_now now x).
  { intros x Hx. rewrite <- Eq in Hx. apply query_alerts_incl in Hx as [_ Hx].
    unfold in_query in Hx. apply andb_true_iff in Hx as [_ Hx].
    unfold ts_or_now. destruct (timestamp x); [reflexivity|discriminate]. }
  assert (Hsorted : sort_alerts (ts_or_now now') (map g (a :: rest))
                    = g first :: map g others).
  { rewrite sort_alerts_map by apply Hkey.
    rewrite (sort_alerts_ext _ (ts_or_now now) _ Hstamped), Es. reflexivity. }
  unfold correlate_alerts. rewrite Hsel.
  change (map g (a :: rest)) with (g a :: map g rest) in *.
  cbv iota.
  rewrite (create_incident_conflict strftime isoformat format_2f str_of_len
             db1 now' (g a) (map g rest)); [reflexivity|].
  unfold number_free.
  rewrite Hsorted. apply negb_false_iff.
  unfold number_taken. apply existsb_exists. exists inc1.
  split; [rewrite Hin; apply in_or_app; right; now left|].
  apply String.eqb_eq. rewrite Hnum. unfold incident_number_at.
  destruct (Hg first) as [_ ->]. rewrite Hkey.
  rewrite Hstamped; [reflexivity|].
  apply (Permutation_in first (sort_alerts_perm (ts_or_now now) (a :: rest))).
  rewrite Es. now left.
Qed.

End AgainWithFormatting.

Lemma correlate_alerts_again_raises_witness :
  exists db' inc,
    correlate_alerts plain_strftime plain_isoformat plain_format_2f plain_str_of_len
      two_user_db boundary_now "user042" 60
      = Ok (db', Some inc)
    /\ correlate_alerts plain_strftime plain_isoformat plain_format_2f plain_str_of_len
         db' (boundary_now + minutes 5) "user042" 90
       = Raise (IntegrityError "incidents.incident_number").
Proof.
  do 2 eexists. split; [reflexivity|].
  eapply (correlate_alerts_again_raises plain_strftime plain_isoformat plain_format_2f
            plain_str_of_len two_user_db boundary_now "user042" 60).
  - reflexivity.
  - intros a [<-|[<-|[]]]; reflexivity.
Defined.

(** *** Text of the mapping and of the narrative *)

Lemma lower_ascii_idempotent : forall c, lower_ascii (lower_ascii c) = lower_ascii c.
Proof.
  intros [[] [] [] [] [] [] [] []]; vm_compute; reflexivity.
Qed.

Lemma lower_idempotent : forall s, lower (lower s) = lower s.
Proof.
  induction s as [|c s IH]; simpl; [reflexivity|].
  now rewrite lower_ascii_idempotent, IH.
Qed.

(** [map_attack_stage] ignores case: two tactic names with the same
    lower-case form get the same stage, and a name gets the stage of its
    lower-case form. *)
Theorem map_attack_stage_ignores_case :
  forall s s' : string,
    lower s = lower s' ->
    map_attack_stage (Some s) = map_attack_stage (Some s')
    /\ map_attack_stage (Some (lower s)) = map_attack_stage (Some s).
Proof.
  assert (H : forall s s', lower s = lower s' ->
                           map_attack_stage (Some s) = map_attack_stage (Some s')).
  { intros [|a r] [|a' r'] Hl; simpl in Hl; try discriminate; [reflexivity|].
    cbv beta iota zeta delta [map_attack_stage]. cbn [lower]. rewrite Hl. reflexivity. }
  intros s s' Hl. split; [now apply H|].
  apply H. apply lower_idempotent.
Qed.

Lemma map_attack_stage_ignores_case_witness :
  map_attack_stage (Some "Data EXFILTRATION") = map_attack_stage (Some "data exfiltration")
  /\ map_attack_stage (Some (lower "Data EXFILTRATION"))
     = map_attack_stage (Some "Data EXFILTRATION").
Proof.
  apply (map_attack_stage_ignores_case "Data EXFILTRATION" "data exfiltration").
  reflexivity.
Defined.

Lemma prefix_append : forall n post, String.prefix n (n ++ post)%string = true.
Proof.
  induction n as [|c n IH]; intros post; simpl.
  - now destruct post.
  - destruct (ascii_dec c c) as [_|Hne]; [apply IH|congruence].
Qed.

Lemma contains_self : forall n post, contains n (n ++ post)%string = true.
Proof.
  intros n post. destruct (n ++ post)%string eqn:E; cbn [contains];
    rewrite <- E, prefix_append; reflexivity.
Qed.

Lemma contains_append_r : forall n pre s,
  contains n s = true -> contains n (pre ++ s)%string = true.
Proof.
  induction pre as [|c pre IH]; intros s Hs; [exact Hs|].
  cbn [append contains]. rewrite (IH s Hs). now destruct (String.prefix n _).
Qed.

Section NarrativeWithFormatting.

Variable strftime : string -> Timestamp -> string.
Variable isoformat : Timestamp -> string.
Variable format_2f : Q -> string.
Variable str_of_len : nat -> string.

(** The narrative and the incident number both name the incident's user,
    and the incident number starts with "INC-", whatever the formatting
    functions print.  This holds on every session but one that already
    stores the incident's number, where the flush raises the integrity error
    instead. *)
Theorem incident_text_names_user :
  forall db now a rest,
    if number_free strftime db now (a :: rest)
    then
      exists db' inc,
        create_incident strftime isoformat format_2f str_of_len db now (a :: rest)
          = Ok (db', inc)
        /\ contains (incident_user_id inc) (narrative inc) = true
        /\ contains (incident_user_id inc) (incident_number inc) = true
        /\ String.prefix "INC-" (incident_number inc) = true
    else
      create_incident strftime isoformat format_2f str_of_len db now (a :: rest)
        = Raise (IntegrityError "incidents.incident_number").
Proof.
  intros db now a rest.
  destruct (number_free strftime db now (a :: rest)) eqn:Hfree;
    [|now apply create_incident_conflict].
  destruct (create_incident_sorted strftime isoformat format_2f str_of_len db now a rest Hfree)
    as (first & others & db' & inc & _ & Hc & Hu & _ & _ & _ & _ & Hn & Hnum & _).
  exists db', inc. split; [exact Hc|]. rewrite Hu, Hn, Hnum. split; [|split].
  - unfold generate_narrative. cbn [String.concat].
    apply contains_append_r, contains_append_r, contains_self.
  - cbn [String.concat].
    do 6 apply contains_append_r.
    replace (user_id first) with (user_id first ++ "")%string at 2
      by (clear; induction (user_id first) as [|c s IH]; simpl; [reflexivity|now rewrite IH]).
    apply contains_self.
  - cbn [String.concat]. apply (prefix_append "INC-").
Qed.

End NarrativeWithFormatting.

End LinkingProperties.

(** ** From a verdict to an incident *)

Module PipelineComposition.

Import Features Scoring PipelineSpec ScoringSpec Samples MoreSamples FrameFacts ScoringFacts.
Import Database Correlator CorrelatorSpec IncidentNumberSpec FormatSamples CorrelatorFacts CorrelatorProperties.
Import LinkingProperties.

(** What [predict_threat] returns when the three artifacts are loaded. *)
Lemma predict_threat_loaded :
  forall (Scaled : Type) (rf xgb : Scaled -> Q) (scale : FeatureVector -> Scaled)
         (th : Thresholds) (event : EventInput) (db : Db),
    let score := ((rf (scale (lone_features (event_row event)))
                   + xgb (scale (lone_features (event_row event)))) / 2)%Q in
    let level := get_threat_level th score in
    let mitre := map_to_mitre "apt" (ei_event_type event) in
    predict_threat th (mkModels (Some rf) (Some xgb) (Some scale)) event db
    = Ok (if score_ge score (THRESHOLD_MEDIUM th)
          then mkDb (alerts db ++ [new_alert db event score level mitre]) (incidents db)
          else db,
          mkPredictionResponse score level (score_ge score (THRESHOLD_MEDIUM th))
            (Some (fst mitre)) (Some (snd mitre))).
Proof.
  intros. unfold predict_threat. cbn [rf_model xgb_model scaler].
  rewrite (predict_features_lone event). reflexivity.
Qed.

Section WithFormatting.

Variable strftime : string -> Timestamp -> string.
Variable isoformat : Timestamp -> string.
Variable format_2f : Q -> string.
Variable str_of_len : nat -> string.

(** A correlation that selects something, and whose incident number is free,
    returns an incident of the queried user and links every selected
    alert. *)
Lemma correlate_alerts_some : forall db now user w x,
  In x (alerts db) -> in_query user (now - minutes w) now x = true ->
  number_free strftime db now (query_alerts db user (now - minutes w) now) = true ->
  exists db' inc,
    correlate_alerts strftime isoformat format_2f str_of_len db now user w
      = Ok (db', Some inc)
    /\ incident_user_id inc = user
    /\ In (set_incident_id x (incident_pk inc)) (alerts db')
    /\ (1 <= length (attack_chain inc))%nat.
Proof.
  intros db now user w x Hx Hq Hfree.
  pose proof (query_alerts_complete db user (now - minutes w) now x Hx Hq) as Hsel.
  unfold correlate_alerts.
  destruct (query_alerts db user (now - minutes w) now) as [|a rest] eqn:Eq;
    [contradiction|].
  destruct (create_incident_sorted strftime isoformat format_2f str_of_len db now a rest Hfree)
    as (first & others & db' & inc & Es & Hc & Hu & _ & _ & _ & Hch & _ & _ & _ & Hal & _).
  rewrite Hc. exists db', inc. split; [reflexivity|].
  pose proof (sort_alerts_perm (ts_or_now now) (a :: rest)) as Hperm.
  rewrite Es in Hperm.
  split; [|split].
  - rewrite Hu. assert (Hf : In first (a :: rest))
      by (eapply Permutation_in; [eassumption|now left]).
    rewrite <- Eq in Hf. apply query_alerts_incl in Hf as [_ Hqf].
    unfold in_query in Hqf. apply andb_true_iff in Hqf as [Hqf _].
    now apply String.eqb_eq.
  - rewrite Hal. apply link_alerts_linked; [assumption|].
    eapply Permutation_in; [apply Permutation_sym; eassumption|assumption].
  - rewrite Hch. simpl. lia.
Qed.

(** End to end: when the ensemble score of an event reaches
    [THRESHOLD_MEDIUM] and the event's timestamp lies in the correlation
    window, [predict_threat] records an alert and a following
    [correlate_alerts] for the event's user never returns none.  It fails at
    the flush, with the integrity error, when the number of the new incident
    is stored already (as when the same user was correlated before over
    alerts starting at the same second); otherwise it yields an incident of
    that user to which the alert just recorded (same score, same timestamp)
    is linked. *)
Theorem malicious_event_is_correlated :
  forall (Scaled : Type) (rf xgb : Scaled -> Q) (scale : FeatureVector -> Scaled)
         (th : Thresholds) (event : EventInput) (db : Db) (now : Timestamp) (w : Z),
    (THRESHOLD_MEDIUM th <=
       (rf (scale (lone_features (event_row event)))
        + xgb (scale (lone_features (event_row event)))) / 2)%Q ->
    now - minutes w <= ei_timestamp event <= now ->
    exists db' resp,
      predict_threat th (mkModels (Some rf) (Some xgb) (Some scale)) event db
        = Ok (db', resp)
      /\ resp_is_malicious resp = true
      /\ if number_free strftime db' now
              (query_alerts db' (ei_user_id event) (now - minutes w) now)
         then
           exists db'' inc alert,
             correlate_alerts strftime isoformat format_2f str_of_len
               db' now (ei_user_id event) w
             = Ok (db'', Some inc)
             /\ incident_user_id inc = ei_user_id event
             /\ (1 <= length (attack_chain inc))%nat
             /\ In alert (alerts db'')
             /\ incident_id alert = Some (incident_pk inc)
             /\ threat_score alert = resp_threat_score resp
             /\ timestamp alert = Some (ei_timestamp event)
         else
           correlate_alerts strftime isoformat format_2f str_of_len
             db' now (ei_user_id event) w
           = Raise (IntegrityError "incidents.incident_number").
Proof.
  intros Scaled rf xgb scale th event db now w Hscore Hwin.
  pose proof (predict_threat_loaded Scaled rf xgb scale th event db) as Hp.
  cbv zeta in Hp.
  set (score := ((rf (scale (lone_features (event_row event)))
                  + xgb (scale (lone_features (event_row event)))) / 2)%Q) in *.
  apply score_ge_iff in Hscore. rewrite Hscore in Hp.
  set (alert := new_alert db event score (get_threat_level th score)
                  (map_to_mitre "apt" (ei_event_type event))) in *.
  set (db' := mkDb (alerts db ++ [alert]) (incidents db)) in *.
  assert (Hx : In alert (alerts db'))
    by (cbn [alerts db']; apply in_or_app; right; now left).
  assert (Hq : in_query (ei_user_id event) (now - minutes w) now alert = true).
  { unfold in_query, alert, new_alert. cbn [user_id timestamp].
    rewrite String.eqb_refl. simpl.
    apply andb_true_iff. split; [apply Z.geb_le|apply Z.leb_le]; lia. }
  do 2 eexists. split; [exact Hp|]. cbn [resp_is_malicious resp_threat_score].
  split; [reflexivity|].
  destruct (number_free strftime db' now
              (query_alerts db' (ei_user_id event) (now - minutes w) now)) eqn:Hfree.
  - destruct (correlate_alerts_some db' now (ei_user_id event) w alert Hx Hq Hfree)
      as (db'' & inc & Hc & Hu & Hlink & Hlen).
    exists db'', inc, (set_incident_id alert (incident_pk inc)).
    repeat split; auto.
  - apply (correlate_alerts_selected strftime isoformat format_2f str_of_len
             db' now (ei_user_id event) w); [|exact Hfree].
    intros Hnil.
    pose proof (query_alerts_complete db' (ei_user_id event) (now - minutes w) now
                  alert Hx Hq) as Hin.
    rewrite Hnil in Hin. contradiction.
Qed.

End WithFormatting.

Lemma malicious_event_is_correlated_witness :
  exists db' resp,
    predict_threat default_thresholds sample_models transfer_event empty_db
      = Ok (db', resp)
    /\ resp_is_malicious resp = true
    /\ exists db'' inc alert,
         correlate_alerts plain_strftime plain_isoformat plain_format_2f plain_str_of_len
           db' boundary_now (ei_user_id transfer_event) 60
         = Ok (db'', Some inc)
         /\ incident_user_id inc = ei_user_id transfer_event
         /\ (1 <= length (attack_chain inc))%nat
         /\ In alert (alerts db'')
         /\ incident_id alert = Some (incident_pk inc)
         /\ threat_score alert = resp_threat_score resp
         /\ timestamp alert = Some (ei_timestamp transfer_event).
Proof.
  destruct (malicious_event_is_correlated plain_strftime plain_isoformat plain_format_2f
              plain_str_of_len unit (fun _ => 0.9%Q) (fun _ => 0.7%Q) (fun _ => tt)
              default_thresholds transfer_event empty_db boundary_now 60)
    as (db' & resp & Hp & Hm & Hc).
  - cbv beta. vm_compute. discriminate.
  - vm_compute. split; discriminate.
  - exists db', resp. split; [exact Hp|]. split; [exact Hm|].
    rewrite predict_threat_loaded in Hp. cbv beta in Hp.
    injection Hp as Hdb Hresp. subst db' resp. exact Hc.
Defined.

End PipelineComposition.

(** ** The user timeline *)

Module TimelineProperties.

Import Database Timeline.

Lemma insert_by_perm : forall (A : Type) (before : A -> A -> bool) a l,
  Permutation (insert_by before a l) (a :: l).
Proof.
  induction l as [|x xs IH]; simpl; [apply Permutation_refl|].
  destruct (before a x); [apply Permutation_refl|].
  eapply Permutation_trans; [apply perm_skip, IH|apply perm_swap].
Qed.

Lemma order_by_perm : forall (A : Type) (before : A -> A -> bool) l,
  Permutation (order_by before l) l.
Proof.
  induction l as [|a l IH]; simpl; [constructor|].
  eapply Permutation_trans; [apply insert_by_perm|now apply perm_skip].
Qed.

Lemma insert_event_sorted : forall a l,
  StronglySorted (fun x y => ev_timestamp y <= ev_timestamp x) l ->
  StronglySorted (fun x y => ev_timestamp y <= ev_timestamp x) (insert_by event_newer a l).
Proof.
  induction l as [|x xs IH]; intros Hs; simpl.
  - repeat constructor.
  - apply StronglySorted_inv in Hs as [Hs Hle]. unfold event_newer at 1.
    destruct (Z.leb_spec (ev_timestamp x) (ev_timestamp a)) as [Hxa|Hax].
    + constructor; [now constructor|].
      constructor; [assumption|].
      eapply Forall_impl; [|exact Hle]. simpl. intros; lia.
    + constructor; [now apply IH|].
      apply (Permutation_Forall (Permutation_sym (insert_by_perm _ event_newer a xs))).
      constructor; [lia|assumption].
Qed.

Lemma order_by_event_sorted : forall l,
  StronglySorted (fun x y => ev_timestamp y <= ev_timestamp x) (order_by event_newer l).
Proof.
  induction l as [|a l IH]; simpl; [constructor|]. now apply insert_event_sorted.
Qed.

Lemma in_firstn : forall (A : Type) n (l : list A) x, In x (firstn n l) -> In x l.
Proof.
  intros A n l x H. rewrite <- (firstn_skipn n l). apply in_or_app. now left.
Qed.

Lemma in_skipn : forall (A : Type) n (l : list A) x, In x (skipn n l) -> In x l.
Proof.
  intros A n l x H. rewrite <- (firstn_skipn n l). apply in_or_app. now right.
Qed.

Lemma sorted_firstn_skipn : forall (A : Type) (R : A -> A -> Prop) n l x y,
  StronglySorted R l -> In x (firstn n l) -> In y (skipn n l) -> R x y.
Proof.
  induction n as [|n IH]; intros l x y Hs Hx Hy; [contradiction|].
  destruct l as [|a l]; [contradiction|].
  apply StronglySorted_inv in Hs as [Hs Hle]. simpl in Hx, Hy.
  destruct Hx as [->|Hx].
  - rewrite Forall_forall in Hle. apply Hle. eapply in_skipn; eassumption.
  - eapply IH; eassumption.
Qed.

Lemma sorted_firstn_keep : forall (A : Type) (R : A -> A -> Prop) n l,
  StronglySorted R l -> StronglySorted R (firstn n l).
Proof.
  induction n as [|n IH]; intros l Hs; [constructor|].
  destruct l as [|a l]; [constructor|]. simpl.
  apply StronglySorted_inv in Hs as [Hs Hle]. constructor; [now apply IH|].
  rewrite Forall_forall in *. intros x Hx. apply Hle. eapply in_firstn; eassumption.
Qed.

(** [get_user_timeline] reports at most 100 events and 50 alerts:
    [total_events] and [total_alerts] are the numbers of rows returned, the
    user's row counts capped at 100 and 50, not the user's totals.  The
    events returned are events of the user, newest first, and every event of
    the user that is left out is no newer than each event returned. *)
Theorem get_user_timeline_is_capped :
  forall (events : list EventRow) (db : Db) (user : string),
    let resp := get_user_timeline events db user in
    let mine := filter (fun e => String.eqb (ev_user_id e) user) events in
    total_events resp = Nat.min 100 (length mine)
    /\ total_alerts resp
       = Nat.min 50 (length (filter (fun a => String.eqb (user_id a) user) (alerts db)))
    /\ length (tl_events resp) = total_events resp
    /\ length (tl_alerts resp) = total_alerts resp
    /\ StronglySorted (fun x y => te_timestamp y <= te_timestamp x) (tl_events resp)
    /\ (forall e, In e mine ->
          In (timeline_event e) (tl_events resp)
          \/ forall r, In r (tl_events resp) -> ev_timestamp e <= te_timestamp r)
    /\ (forall r, In r (tl_events resp) ->
          exists e, In e events /\ ev_user_id e = user /\ r = timeline_event e).
Proof.
  intros events db user resp mine. unfold resp, get_user_timeline.
  cbn [total_events total_alerts tl_events tl_alerts].
  unfold timeline_event_rows, timeline_alert_rows. fold mine.
  pose proof (order_by_perm _ event_newer mine) as Hperm.
  pose proof (order_by_event_sorted mine) as Hsorted.
  split; [|split; [|split; [|split; [|split; [|split]]]]].
  - rewrite length_firstn. now rewrite (Permutation_length Hperm).
  - rewrite length_firstn. now rewrite (Permutation_length (order_by_perm _ alert_newer _)).
  - apply length_map.
  - apply length_map.
  - pose proof (sorted_firstn_keep _ _ 100 _ Hsorted) as Hs.
    induction Hs as [|a l Hs IH Hle]; simpl; constructor; [assumption|].
    rewrite Forall_map. exact Hle.
  - intros e He.
    assert (Hin : In e (order_by event_newer mine))
      by (eapply Permutation_in; [apply Permutation_sym; eassumption|assumption]).
    rewrite <- (firstn_skipn 100 (order_by event_newer mine)) in Hin.
    apply in_app_or in Hin as [Hin|Hin].
    + left. now apply in_map.
    + right. intros r Hr. apply in_map_iff in Hr as (e' & <- & He').
      simpl. eapply (sorted_firstn_skipn _ _ 100 _ e' e Hsorted); assumption.
  - intros r Hr. apply in_map_iff in Hr as (e & <- & He).
    apply in_firstn in He. apply (Permutation_in _ Hperm) in He.
    apply filter_In in He as [He Hu]. exists e. repeat split; auto.
    now apply String.eqb_eq.
Qed.

End TimelineProperties.

(** ** Independence of the users of a frame *)

Module Independence.

Import Features WindowSpec FeaturesFacts LoopFacts FrameFacts FrameProperties.
Import IndependenceSpec.

Lemma compare_lt_gt : forall a b, String.compare a b = Lt -> String.compare b a = Gt.
Proof.
  intros a b H. rewrite String.compare_antisym, H. reflexivity.
Qed.

Lemma compare_gt_lt : forall a b, String.compare a b = Gt -> String.compare b a = Lt.
Proof.
  intros a b H. rewrite String.compare_antisym, H. reflexivity.
Qed.

Lemma compare_lt_trans : forall a b c,
  String.compare a b = Lt -> String.compare b c = Lt -> String.compare a c = Lt.
Proof.
  intros a b c Hab Hbc.
  apply OrderedTypeEx.String_as_OT.cmp_lt.
  apply OrderedTypeEx.String_as_OT.cmp_lt in Hab, Hbc.
  eapply OrderedTypeEx.String_as_OT.lt_trans; eassumption.
Qed.

Lemma row_leb_total : forall a b, row_leb a b = false -> row_leb b a = true.
Proof.
  intros a b. unfold row_leb.
  destruct (String.compare (user_id a) (user_id b)) eqn:E; intros H; try discriminate.
  - apply String.compare_eq_iff in E. rewrite E, string_compare_refl in *.
    apply Z.leb_gt in H. apply Z.leb_le. lia.
  - now rewrite (compare_gt_lt _ _ E).
Qed.

Lemma row_leb_trans : forall a b c,
  row_leb a b = true -> row_leb b c = true -> row_leb a c = true.
Proof.
  intros a b c. unfold row_leb.
  destruct (String.compare (user_id a) (user_id b)) eqn:Eab; try discriminate;
    destruct (String.compare (user_id b) (user_id c)) eqn:Ebc; try discriminate;
    intros Hab Hbc.
  - apply String.compare_eq_iff in Eab, Ebc. rewrite Eab, Ebc, string_compare_refl.
    apply Z.leb_le in Hab, Hbc. apply Z.leb_le. lia.
  - apply String.compare_eq_iff in Eab. now rewrite Eab, Ebc.
  - apply String.compare_eq_iff in Ebc. now rewrite <- Ebc, Eab.
  - now rewrite (compare_lt_trans _ _ _ Eab Ebc).
Qed.

Lemma insert_row_sorted : forall e l,
  StronglySorted (fun a b => row_leb a b = true) l ->
  StronglySorted (fun a b => row_leb a b = true) (insert_row e l).
Proof.
  induction l as [|x xs IH]; intros Hs; simpl.
  - repeat constructor.
  - apply StronglySorted_inv in Hs as [Hs Hle].
    destruct (row_leb e x) eqn:Eex.
    + constructor; [now constructor|].
      constructor; [assumption|].
      eapply Forall_impl; [|exact Hle]. simpl. intros y Hy.
      eapply row_leb_trans; eassumption.
    + constructor; [now apply IH|].
      apply (Permutation_Forall (Permutation_sym (insert_row_perm e xs))).
      constructor; [now apply row_leb_total|assumption].
Qed.

(** The frame after [sort_values] is in the order of its key. *)
Lemma sort_values_ordered : forall df,
  StronglySorted (fun a b => row_leb a b = true) (sort_values df).
Proof.
  induction df as [|e df IH]; simpl; [constructor|]. now apply insert_row_sorted.
Qed.

Lemma insert_row_first : forall e l,
  Forall (fun y => row_leb e y = true) l -> insert_row e l = e :: l.
Proof.
  intros e [|x xs] H; [reflexivity|]. simpl.
  now rewrite (Forall_inv H).
Qed.

Lemma filter_insert_row : forall (p : Event -> bool) e l,
  StronglySorted (fun a b => row_leb a b = true) l ->
  filter p (insert_row e l) =
  if p e then insert_row e (filter p l) else filter p l.
Proof.
  intros p e. induction l as [|x xs IH]; intros Hs.
  - simpl. destruct (p e); reflexivity.
  - apply StronglySorted_inv in Hs as [Hs Hle]. specialize (IH Hs).
    simpl. destruct (row_leb e x) eqn:Eex.
    + simpl. destruct (p e) eqn:Epe; [|reflexivity].
      destruct (p x) eqn:Epx.
      * simpl. now rewrite Eex.
      * symmetry. apply insert_row_first.
        apply Forall_forall. intros y Hy. apply filter_In in Hy as [Hy _].
        rewrite Forall_forall in Hle. eapply row_leb_trans; [exact Eex|now apply Hle].
    + simpl. destruct (p x) eqn:Epx.
      * rewrite IH. destruct (p e); [|reflexivity]. simpl. now rewrite Eex.
      * exact IH.
Qed.

(** Sorting commutes with selecting the rows of a user. *)
Lemma sort_values_filter : forall (p : Event -> bool) df,
  filter p (sort_values df) = sort_values (filter p df).
Proof.
  intros p. induction df as [|e df IH]; [reflexivity|].
  simpl. rewrite filter_insert_row by apply sort_values_ordered.
  rewrite IH. destruct (p e); reflexivity.
Qed.

(** *** Groups *)

Lemma groupby_user_nil : forall l, groupby_user l = [] -> l = [].
Proof.
  intros l H. rewrite <- (groupby_user_concat l), H. reflexivity.
Qed.

Lemma groupby_user_cons : forall e rest,
  groupby_user (e :: rest) =
  match groupby_user rest with
  | (u, g) :: gs =>
      if String.eqb (user_id e) u then (u, e :: g) :: gs
      else (user_id e, [e]) :: (u, g) :: gs
  | [] => [(user_id e, [e])]
  end.
Proof. reflexivity. Qed.

(** Every group holds rows of its key only, and its first row is the first
    row of what it groups. *)
Lemma groupby_user_keys : forall l,
  Forall (fun ug => Forall (fun e => user_id e = fst ug) (snd ug)) (groupby_user l).
Proof.
  induction l as [|e rest IH]; [constructor|]. rewrite groupby_user_cons.
  destruct (groupby_user rest) as [|[v g] gs].
  - repeat constructor.
  - apply Forall_cons_iff in IH as [Hg Hgs]. simpl in Hg.
    destruct (String.eqb_spec (user_id e) v) as [Hev|Hev].
    + constructor; [|assumption]. simpl. now constructor.
    + constructor; [repeat constructor|]. now constructor.
Qed.

Lemma groupby_user_head : forall h rest v g gs,
  groupby_user (h :: rest) = (v, g) :: gs -> user_id h = v.
Proof.
  intros h rest v g gs. rewrite groupby_user_cons.
  destruct (groupby_user rest) as [|[v' g'] gs'].
  - intros H. now inversion H.
  - destruct (String.eqb_spec (user_id h) v') as [Hev|Hev]; intros H; inversion H; congruence.
Qed.

(** In a frame sorted by user, the rows of a user form one group. *)
Lemma groupby_user_sorted : forall l u,
  StronglySorted (fun a b => row_leb a b = true) l ->
  groups_of u (groupby_user l) =
  match rows_of_user u l with
  | [] => []
  | _ :: _ => [(u, rows_of_user u l)]
  end.
Proof.
  induction l as [|e rest IH]; intros u Hs; [reflexivity|].
  apply StronglySorted_inv in Hs as [Hs Hle]. specialize (IH u Hs).
  rewrite groupby_user_cons. unfold rows_of_user in *. cbn [filter].
  destruct (groupby_user rest) as [|[v g] gs] eqn:EG.
  - apply groupby_user_nil in EG. subst rest. unfold groups_of. cbn [filter fst].
    destruct (String.eqb_spec (user_id e) u) as [->|]; reflexivity.
  - unfold groups_of in *. cbn [filter fst] in IH.
    destruct (String.eqb_spec (user_id e) v) as [Hev|Hev].
    + cbn [filter fst]. rewrite Hev.
      destruct (String.eqb_spec v u) as [Hvu|Hvu].
      * destruct (filter (fun e0 => String.eqb (user_id e0) u) rest) as [|r rs];
          [discriminate|].
        inversion IH as [[Hg Hgs]]. subst v. reflexivity.
      * exact IH.
    + cbn [filter fst].
      destruct (String.eqb_spec (user_id e) u) as [Heu|Heu]; [|exact IH].
      assert (Hnone : filter (fun e0 => String.eqb (user_id e0) u) rest = []).
      { destruct rest as [|h rest']; [reflexivity|].
        pose proof (groupby_user_head h rest' v g gs EG) as Hh.
        apply StronglySorted_inv in Hs as [_ Hhle].
        assert (Hlt : String.compare (user_id e) v = Lt).
        { pose proof (Forall_inv Hle) as Heh. unfold row_leb in Heh. rewrite Hh in Heh.
          destruct (String.compare (user_id e) v) eqn:E; try discriminate; [|reflexivity].
          apply String.compare_eq_iff in E. congruence. }
        apply compare_lt_gt in Hlt.
        assert (Hall : forall x, In x (h :: rest') -> user_id x <> u).
        { intros x [<-|Hx] Hxu; [congruence|].
          rewrite Forall_forall in Hhle. specialize (Hhle x Hx).
          unfold row_leb in Hhle. rewrite Hh, Hxu, <- Heu, Hlt in Hhle. discriminate. }
        clear - Hall. induction (h :: rest') as [|x xs IHx]; [reflexivity|].
        simpl. destruct (String.eqb_spec (user_id x) u) as [Hxu|_].
        - exfalso. apply (Hall x); [now left|assumption].
        - apply IHx. intros y Hy. apply Hall. now right. }
      rewrite Hnone in *. rewrite IH. now rewrite Heu.
Qed.

Lemma filter_all_true : forall (A : Type) (p : A -> bool) l,
  Forall (fun x => p x = true) l -> filter p l = l.
Proof.
  induction 1 as [|x l Hx Hl IH]; simpl; [reflexivity|]. now rewrite Hx, IH.
Qed.

Lemma filter_all_false : forall (A : Type) (p : A -> bool) l,
  Forall (fun x => p x = false) l -> filter p l = [].
Proof.
  induction 1 as [|x l Hx Hl IH]; simpl; [reflexivity|]. now rewrite Hx.
Qed.

Lemma features_of_user_group : forall u v g,
  Forall (fun e => user_id e = v) g ->
  features_of_user u (group_features g) =
  if String.eqb v u then group_features g else [].
Proof.
  intros u v g Hg. unfold features_of_user.
  assert (Hrows : Forall (fun rf => user_id (fst rf) = v) (group_features g)).
  { rewrite <- (group_loop_rows g [] initial_state) in Hg.
    rewrite Forall_map in Hg. exact Hg. }
  destruct (String.eqb_spec v u) as [Hvu|Hvu].
  - apply filter_all_true. eapply Forall_impl; [|exact Hrows].
    simpl. intros rf Hrf. rewrite Hrf. now apply String.eqb_eq.
  - apply filter_all_false. eapply Forall_impl; [|exact Hrows].
    simpl. intros rf Hrf. rewrite Hrf. now apply String.eqb_neq.
Qed.

Lemma features_of_user_groups : forall u groups,
  Forall (fun ug => Forall (fun e => user_id e = fst ug) (snd ug)) groups ->
  features_of_user u (concat (map (fun ug => group_features (snd ug)) groups)) =
  concat (map (fun ug => group_features (snd ug)) (groups_of u groups)).
Proof.
  intros u groups H. induction H as [|[v g] gs Hg Hgs IH]; [reflexivity|].
  simpl in Hg. cbn [map concat snd].
  assert (Happ : forall a b, features_of_user u (a ++ b)
                             = features_of_user u a ++ features_of_user u b).
  { intros a b. unfold features_of_user. apply filter_app. }
  rewrite Happ, IH, (features_of_user_group u v g Hg).
  unfold groups_of. cbn [filter fst].
  destruct (String.eqb v u); reflexivity.
Qed.

(** The users of a frame do not influence each other: the feature rows
    [compute_batch_features] gives a user within a frame are the rows it
    gives on the frame restricted to that user's events. *)
Theorem compute_batch_features_per_user :
  forall (df : list Event) (u : string),
    features_of_user u (compute_batch_features df)
    = compute_batch_features (rows_of_user u df).
Proof.
  intros df u. unfold compute_batch_features.
  rewrite (features_of_user_groups u _ (groupby_user_keys (sort_values df))).
  rewrite (groupby_user_sorted _ u (sort_values_ordered df)).
  unfold rows_of_user at 3. rewrite <- sort_values_filter.
  fold (rows_of_user u (sort_values df)).
  destruct (rows_of_user u (sort_values df)) as [|e rest] eqn:Er; [reflexivity|].
  assert (Hu : same_user u (e :: rest)).
  { unfold same_user. apply Forall_forall. intros x Hx. rewrite <- Er in Hx.
    unfold rows_of_user in Hx. apply filter_In in Hx as [_ Hx]. now apply String.eqb_eq. }
  now rewrite (groupby_same_user u e rest Hu).
Qed.

End Independence.
